(** * WebVfx: the cross-thread bridge of [EffectsImpl]

    A shallow embedding of [src/webvfx/effects_impl.cpp].  The bridge object
    lives on the GUI thread once [initialize] has moved it there; worker
    threads post queued invocations to it and sleep on a stack-allocated
    mutex / wait-condition pair until the GUI thread wakes them.

    Layout of the development:
    - strings: [QString::endsWith] with [Qt::CaseInsensitive];
    - the collaborators the bridge is written against ([QUrl]/[QFileInfo],
      and the abstract [Content] class), as type classes;
    - the object [EffectsImpl] and the bodies of its slots, in a small
      state/writer/fault monad (a call through a null pointer is a fault);
    - an interleaving semantics [exec] of worker threads, the GUI event
      loop and the signals of the content;
    - the properties.

    What the semantics takes from Qt.  Memory is sequentially consistent
    and a worker executes one statement of the marshaling branch per step.
    Whatever the GUI thread runs -- the delivery of one queued invocation,
    a slot called by a signal, an operation called in place -- is one step,
    its event loop being cooperative; it cannot be taken while it would
    lock a mutex that a worker owns.  [moveToThread] succeeds.  Events
    posted to the object are delivered in posting order by the loop of the
    GUI thread, once the object lives there.  [deleteLater] posts an event
    whose delivery runs the destructor, and the destructor of a [QObject]
    drops the events still posted to it and the connections made to its
    slots.  [QMutexLocker] accepts a null
    mutex; [wakeAll] wakes the thread asleep on that wait condition and is
    lost otherwise.
    Using [this] after the destructor has run is undefined behaviour.
    A load of the content, once started, is followed by its two signals,
    each at most once.  A handler that an [initialize] replaces is neither
    deleted nor disconnected by the bridge: it stays behind, and a signal
    of a load it still has outstanding runs the slot it is connected to.

    [getImageTypeMap] and [setImage] forward to the content on the calling
    thread; what the content keeps of an image is a third class,
    [ContentImages]. *)

From Stdlib Require Import ZArith String Ascii List Bool Lia.
From stdpp Require Import base option list.
Import ListNotations.

Set Implicit Arguments.
Open Scope string_scope.

(** ** Strings *)

Module QString.

Definition toLower (a : ascii) : ascii :=
  let n := nat_of_ascii a in
  if ((65 <=? n) && (n <=? 90))%nat then ascii_of_nat (n + 32) else a.

Fixpoint lower (s : string) : string :=
  match s with
  | EmptyString => EmptyString
  | String a r => String (toLower a) (lower r)
  end.

Fixpoint startsWith (l p : list ascii) : bool :=
  match p, l with
  | [], _ => true
  | a :: p', b :: l' => (a =? b)%char && startsWith l' p'
  | _ :: _, [] => false
  end.

(** The characters of [s], case-folded, last one first. *)
Definition folded (s : string) : list ascii :=
  rev (list_ascii_of_string (lower s)).

(** [s.endsWith(suffix, Qt::CaseInsensitive)] *)
Definition endsWith (s suffix : string) : bool :=
  startsWith (folded s) (folded suffix).

End QString.

(** ** Collaborators *)

(** What [initialize] uses of [QUrl] and [QFileInfo]. *)
Class QtUrl := {
  QUrl : Type;
  QUrl_fromString : string -> QUrl;            (* QUrl(const QString&) *)
  scheme : QUrl -> string;
  path : QUrl -> string;
  toString : QUrl -> string;
  toString_RemoveScheme : QUrl -> string;      (* toString(QUrl::RemoveScheme) *)
  fromLocalFile : string -> QUrl;
  isValid : QUrl -> bool;
  isLocalFile : QUrl -> bool;
  absoluteFilePath : string -> string          (* QFileInfo(f).absoluteFilePath() *)
}.

Record QSize := mkQSize { width : Z; height : Z }.

Inductive Variant := WebContentV | QmlContentV.

(** The abstract class [Content] and what its two implementations are
    constructed from; [Engine] is the state a handler keeps. *)
Class ContentImpl `{QtUrl} := {
  TimePoint : Type;
  Parameters : Type;
  Image : Type;
  imageWidth : Image -> Z;
  imageHeight : Image -> Z;
  Engine : Type;
  construct : Variant -> QSize -> Parameters -> Engine;
  setTransparent : Engine -> Engine;
  loadContent : QUrl -> Engine -> Engine;
  setContentSize : QSize -> Engine -> Engine;
  renderContent : TimePoint -> Image -> Engine -> bool * Engine;
  reload : Engine -> Engine
}.

Inductive Signal := contentPreLoadFinished | contentLoadFinished.

Definition Signal_eqb (a b : Signal) : bool :=
  match a, b with
  | contentPreLoadFinished, contentPreLoadFinished => true
  | contentLoadFinished, contentLoadFinished => true
  | _, _ => false
  end.

Inductive Thread := UIThread | Worker (t : nat).

(** A stack-allocated [QMutex]/[QWaitCondition] pair is named by the worker
    whose frame holds it: a blocked worker has one frame. *)
Abbreviation RecordId := nat (only parsing).

Inductive RetVal := RBool (b : bool) | RVoid.

Inductive Op := OpInitialize | OpRender | OpReload | OpDestroy.

Section Bridge.

Context {QU : QtUrl} {CI : ContentImpl}.

(** ** The object *)

(** A live [Content]: its dynamic type, the handler's state, the signals
    connected to [initializeComplete], and the signals an outstanding
    load has yet to emit. *)
Record Content := mkContent {
  variant : Variant;
  engine : Engine;
  connections : list Signal;
  pending : list Signal
}.

Record EffectsImpl := mkEffectsImpl {
  content : option Content;
  mutex : option RecordId;
  waitCondition : option RecordId;
  initializeResult : bool;
  renderResult : bool
}.

(** [EffectsImpl::EffectsImpl] *)
Definition EffectsImpl_new : EffectsImpl :=
  {| content := None; mutex := None; waitCondition := None;
     initializeResult := false; renderResult := false |}.

Definition set_content (h : option Content) (o : EffectsImpl) :=
  {| content := h; mutex := mutex o; waitCondition := waitCondition o;
     initializeResult := initializeResult o; renderResult := renderResult o |}.
Definition set_mutex (m : option RecordId) (o : EffectsImpl) :=
  {| content := content o; mutex := m; waitCondition := waitCondition o;
     initializeResult := initializeResult o; renderResult := renderResult o |}.
Definition set_waitCondition (w : option RecordId) (o : EffectsImpl) :=
  {| content := content o; mutex := mutex o; waitCondition := w;
     initializeResult := initializeResult o; renderResult := renderResult o |}.
Definition set_initializeResult (b : bool) (o : EffectsImpl) :=
  {| content := content o; mutex := mutex o; waitCondition := waitCondition o;
     initializeResult := b; renderResult := renderResult o |}.
Definition set_renderResult (b : bool) (o : EffectsImpl) :=
  {| content := content o; mutex := mutex o; waitCondition := waitCondition o;
     initializeResult := initializeResult o; renderResult := b |}.

(** What a slot does to the world outside the object, in order. *)
Inductive Action :=
| ALog (msg : string)
| ANewContent (v : Variant) (size : QSize) (p : Parameters)
| ALeaveBehind (h : Content)            (* content = ...; the old one not deleted *)
| ASetTransparent
| AConnect (s : Signal)                 (* ... to SLOT(initializeComplete(bool)) *)
| ALoadContent (u : QUrl)
| ASetContentSize (size : QSize)
| ARenderContent (t : TimePoint) (img : Image)
| AReload
| ADeleteContent
| ALock (m : option RecordId)           (* QMutexLocker locker(m); null: no-op *)
| AWakeAll (w : RecordId)
| ADeleteLater
| AReturn (op : Op) (v : RetVal).

(** ** The monad of slot bodies *)

(** A body runs to its end, or stops at a call through a null pointer;
    either way it has performed [acts]. *)
Inductive Outcome (A : Type) :=
| Done (a : A) (o : EffectsImpl) (acts : list Action)
| NullDeref (acts : list Action).
Arguments NullDeref {A}.

Definition M (A : Type) : Type := EffectsImpl -> Outcome A.

Definition ret {A} (a : A) : M A := fun o => Done a o [].
Definition bind {A B} (m : M A) (k : A -> M B) : M B :=
  fun o =>
    match m o with
    | Done a o1 acts1 =>
        match k a o1 with
        | Done b o2 acts2 => Done b o2 (acts1 ++ acts2)
        | NullDeref acts2 => NullDeref (acts1 ++ acts2)
        end
    | NullDeref acts1 => NullDeref acts1
    end.
Definition gets {A} (f : EffectsImpl -> A) : M A := fun o => Done (f o) o [].
Definition modify (f : EffectsImpl -> EffectsImpl) : M unit :=
  fun o => Done tt (f o) [].
Definition emit (a : Action) : M unit := fun o => Done tt o [a].
Definition fault {A} : M A := fun _ => NullDeref [].

Declare Scope bridge_scope.
Delimit Scope bridge_scope with bridge.
Notation "x <- m ;; k" := (bind m (fun x => k))
  (at level 100, m at next level, right associativity) : bridge_scope.
Notation "m ;; k" := (bind m (fun _ => k))
  (at level 100, right associativity) : bridge_scope.
Local Open Scope bridge_scope.

(** [content->f(...)]: a fault when [content] is null. *)
Definition withContent {A} (k : Content -> M A) : M A :=
  h <- gets content ;;
  match h with
  | Some c => k c
  | None => fault
  end.

Definition updContent (f : Content -> Content) : M unit :=
  withContent (fun c => modify (set_content (Some (f c)))).

Definition set_engine (e : Engine) (c : Content) : Content :=
  {| variant := variant c; engine := e;
     connections := connections c; pending := pending c |}.
Definition add_connection (s : Signal) (c : Content) : Content :=
  {| variant := variant c; engine := engine c;
     connections := connections c ++ [s]; pending := pending c |}.
Definition set_pending (p : list Signal) (c : Content) : Content :=
  {| variant := variant c; engine := engine c;
     connections := connections c; pending := p |}.

(** A load, once started, ends with the handler emitting its signals. *)
Definition loadSignals : list Signal :=
  [contentPreLoadFinished; contentLoadFinished].

(** *** Calls on the content *)

(** [content = new WebContent(size, parameters)], or [QmlContent]: the
    pointer is overwritten; the handler it pointed to, if any, is neither
    deleted nor disconnected and stays behind. *)
Definition new_Content (v : Variant) (size : QSize) (p : Parameters) : M unit :=
  old <- gets content ;;
  emit (ANewContent v size p) ;;
  match old with
  | Some h => emit (ALeaveBehind h)
  | None => ret tt
  end ;;
  modify (set_content (Some {| variant := v; engine := construct v size p;
                               connections := []; pending := [] |})).

Definition content_setTransparent : M unit :=
  emit ASetTransparent ;;
  updContent (fun c => set_engine (setTransparent (engine c)) c).

Definition connect (s : Signal) : M unit :=
  emit (AConnect s) ;; updContent (add_connection s).

Definition content_loadContent (url : QUrl) : M unit :=
  emit (ALoadContent url) ;;
  updContent (fun c => set_pending loadSignals
                         (set_engine (loadContent url (engine c)) c)).

Definition content_setContentSize (size : QSize) : M unit :=
  emit (ASetContentSize size) ;;
  updContent (fun c => set_engine (setContentSize size (engine c)) c).

Definition content_renderContent (time : TimePoint) (renderImage : Image) : M bool :=
  emit (ARenderContent time renderImage) ;;
  withContent (fun c =>
    let r := renderContent time renderImage (engine c) in
    modify (set_content (Some (set_engine (snd r) c))) ;;
    ret (fst r)).

Definition content_reload : M unit :=
  emit AReload ;;
  updContent (fun c => set_pending loadSignals
                         (set_engine (reload (engine c)) c)).

(** *** The slots of [EffectsImpl] *)

(** [EffectsImpl::initializeComplete]: the locker accepts a null mutex,
    [waitCondition->wakeAll()] does not accept a null wait condition. *)
Definition initializeComplete (result : bool) : M unit :=
  m <- gets mutex ;;
  emit (ALock m) ;;
  modify (set_initializeResult result) ;;
  w <- gets waitCondition ;;
  match w with
  | Some r => emit (AWakeAll r)
  | None => fault
  end.

(** [EffectsImpl::renderComplete] *)
Definition renderComplete (result : bool) : M unit :=
  m <- gets mutex ;;
  w <- gets waitCondition ;;
  match m, w with
  | Some _, Some r =>
      emit (ALock m) ;;
      modify (set_renderResult result) ;;
      emit (AWakeAll r)
  | _, _ => ret tt
  end.

Definition unsupportedMessage : string :=
  "WebVfx Filename must end with '.html', '.htm', or '.qml': ".

(** [EffectsImpl::initializeInvokable] *)
Definition initializeInvokable (url : QUrl) (size : QSize) (parameters : Parameters)
    (isPlain isTransparent : bool) : M unit :=
  let path := path url in
  if QString.endsWith path ".html" || QString.endsWith path ".htm"
     || negb (isLocalFile url)
  then
    new_Content WebContentV size parameters ;;
    (if isTransparent then content_setTransparent else ret tt) ;;
    (if isPlain then connect contentPreLoadFinished
     else connect contentLoadFinished) ;;
    content_loadContent url
  else if QString.endsWith path ".qml" then
    new_Content QmlContentV size parameters ;;
    (if isPlain then connect contentPreLoadFinished
     else connect contentLoadFinished) ;;
    content_loadContent url
  else
    emit (ALog (unsupportedMessage ++ path)).

(** [EffectsImpl::renderInvokable] *)
Definition renderInvokable (time : TimePoint) (renderImage : Image) : M unit :=
  content_setContentSize
    (mkQSize (imageWidth renderImage) (imageHeight renderImage)) ;;
  r <- content_renderContent time renderImage ;;
  renderComplete r.

(** [EffectsImpl::reloadInvokable] *)
Definition reloadInvokable : M unit := content_reload.

(** ** Entry points *)

(** [EffectsImpl::onUIThread], for the thread that asks. *)
Definition onUIThread (who : Thread) : bool :=
  match who with
  | UIThread => true
  | Worker _ => false
  end.

(** The three [QMetaObject::invokeMethod(this, ..., Qt::QueuedConnection)]. *)
Inductive MetaCall :=
| initializeInvokableCall (url : QUrl) (size : QSize) (parameters : Parameters)
    (isPlain isTransparent : bool)
| renderInvokableCall (time : TimePoint) (renderImage : Image)
| reloadInvokableCall.

Definition invoke (m : MetaCall) : M unit :=
  match m with
  | initializeInvokableCall url size parameters isPlain isTransparent =>
      initializeInvokable url size parameters isPlain isTransparent
  | renderInvokableCall time renderImage => renderInvokable time renderImage
  | reloadInvokableCall => reloadInvokable
  end.

Definition opOf (m : MetaCall) : Op :=
  match m with
  | initializeInvokableCall _ _ _ _ _ => OpInitialize
  | renderInvokableCall _ _ => OpRender
  | reloadInvokableCall => OpReload
  end.

(** What the blocked caller returns once it has been woken. *)
Definition resultOf (m : MetaCall) (o : EffectsImpl) : RetVal :=
  match m with
  | initializeInvokableCall _ _ _ _ _ => RBool (initializeResult o)
  | renderInvokableCall _ _ => RBool (renderResult o)
  | reloadInvokableCall => RVoid
  end.

Definition wrongThreadMessage : string :=
  "WebVfx::Effects cannot be initialized on main UI thread.".

(** [initialize], from [QUrl url(fileName)] to the validity test: the
    locator and the plain flag, or nothing when the local-file locator is
    not valid. *)
Definition resolveLocator (fileName : string) : option (QUrl * bool) :=
  let url := QUrl_fromString fileName in
  let isPlain := (scheme url =? "plain")%string in
  let url := if isPlain then QUrl_fromString (toString_RemoveScheme url) else url in
  if (String.length (scheme url) <? 2)%nat then
    let url := fromLocalFile (absoluteFilePath (toString url)) in
    if negb (isValid url) then None else Some (url, isPlain)
  else Some (url, isPlain).

Inductive Prologue :=
| Refused (msg : string)                (* log(msg); return false; *)
| Marshal (m : MetaCall).

(** [initialize] up to [QSize size(width, height)]. *)
Definition initialize_prologue (who : Thread) (fileName : string)
    (width height : Z) (parameters : Parameters) (isTransparent : bool) : Prologue :=
  if onUIThread who then Refused wrongThreadMessage
  else
    match resolveLocator fileName with
    | None => Refused ("Invalid URL: " ++ fileName)
    | Some (url, isPlain) =>
        Marshal (initializeInvokableCall url (mkQSize width height)
                   parameters isPlain isTransparent)
    end.

(** The public operations. *)
Inductive Call :=
| Initialize (fileName : string) (width height : Z) (parameters : Parameters)
    (isTransparent : bool)
| Render (time : TimePoint) (renderImage : Image)
| Reload
| Destroy.

(** [render] and [reload] when [onUIThread()], and [destroy] on any
    thread: no hand-off, the body runs on the calling thread. *)
Definition render_inPlace (time : TimePoint) (renderImage : Image) : M unit :=
  renderInvokable time renderImage ;;
  r <- gets renderResult ;;
  emit (AReturn OpRender (RBool r)).

Definition reload_inPlace : M unit :=
  reloadInvokable ;; emit (AReturn OpReload RVoid).

Definition destroy : M unit :=
  emit ADeleteLater ;; emit (AReturn OpDestroy RVoid).

(** ** Threads, the event queue and their interleaving *)

(** What sits in the event queue of the thread the object lives on. *)
Inductive Event :=
| MetaCallEvent (m : MetaCall)
| DeferredDelete.                       (* deleteLater() *)

(** The statements of the marshaling branch shared by [initialize],
    [render] and [reload]; a worker is about to execute its [pc]. *)
Inductive Pc :=
| PcSetMutex                            (* this->mutex = &mutex; *)
| PcSetWaitCondition                    (* this->waitCondition = &waitCondition; *)
| PcLock                                (* QMutexLocker locker(&mutex); *)
| PcMoveToThread                        (* this->moveToThread(...); initialize only *)
| PcInvoke                              (* QMetaObject::invokeMethod(this, ...); *)
| PcWait                                (* waitCondition.wait(&mutex); *)
| PcWaiting                             (* asleep, the mutex released *)
| PcWoken                               (* woken, taking the mutex again *)
| PcUnlock                              (* end of the locker's block *)
| PcClearMutex                          (* this->mutex = 0; *)
| PcClearWaitCondition                  (* this->waitCondition = 0; *)
| PcReturn.                             (* return initializeResult / renderResult; *)

Record Frame := mkFrame { call : MetaCall; pc : Pc }.

Inductive ThreadState :=
| Idle
| Running (f : Frame)
| Returned (op : Op) (v : RetVal).

(** The object, whether it still exists, whether it has been moved to the
    GUI thread, the queue of events posted to it, the workers, what has
    happened so far, and the handlers the object no longer points to:
    alive, and connected to it as they were. *)
Record Config := mkConfig {
  this : EffectsImpl;
  alive : bool;
  onGui : bool;
  queue : list Event;
  threads : list ThreadState;
  trace : list (Thread * Action);
  leftBehind : list Content
}.

Definition init (n : nat) : Config :=
  {| this := EffectsImpl_new; alive := true; onGui := false; queue := [];
     threads := replicate n Idle; trace := []; leftBehind := [] |}.

Definition with_this (o : EffectsImpl) (c : Config) : Config :=
  {| this := o; alive := alive c; onGui := onGui c; queue := queue c;
     threads := threads c; trace := trace c; leftBehind := leftBehind c |}.
Definition with_onGui (b : bool) (c : Config) : Config :=
  {| this := this c; alive := alive c; onGui := b; queue := queue c;
     threads := threads c; trace := trace c; leftBehind := leftBehind c |}.
Definition with_queue (q : list Event) (c : Config) : Config :=
  {| this := this c; alive := alive c; onGui := onGui c; queue := q;
     threads := threads c; trace := trace c; leftBehind := leftBehind c |}.
Definition with_threads (ts : list ThreadState) (c : Config) : Config :=
  {| this := this c; alive := alive c; onGui := onGui c; queue := queue c;
     threads := ts; trace := trace c; leftBehind := leftBehind c |}.
Definition with_leftBehind (hs : list Content) (c : Config) : Config :=
  {| this := this c; alive := alive c; onGui := onGui c; queue := queue c;
     threads := threads c; trace := trace c; leftBehind := hs |}.
Definition logged (who : Thread) (acts : list Action) (c : Config) : Config :=
  {| this := this c; alive := alive c; onGui := onGui c; queue := queue c;
     threads := threads c; trace := trace c ++ map (pair who) acts;
     leftBehind := leftBehind c |}.

Inductive Result :=
| Next (c : Config)
| Crash                                 (* undefined behaviour was reached *)
| Disabled.                             (* the step cannot be taken now *)

(** A worker owns its mutex from the locker to the wait, and again from
    the wake-up to the end of the locker's block. *)
Definition holdsMutex (p : Pc) : bool :=
  match p with
  | PcMoveToThread | PcInvoke | PcWait | PcUnlock => true
  | _ => false
  end.

Definition held (ts : list ThreadState) (m : RecordId) : bool :=
  match ts !! m with
  | Some (Running f) => holdsMutex (pc f)
  | _ => false
  end.

Definition blockedOn (ts : list ThreadState) (a : Action) : bool :=
  match a with
  | ALock (Some m) => held ts m
  | _ => false
  end.

(** [wakeAll] reaches the worker asleep on that wait condition, if any. *)
Definition wake (ts : list ThreadState) (a : Action) : list ThreadState :=
  match a with
  | AWakeAll w =>
      match ts !! w with
      | Some (Running f) =>
          match pc f with
          | PcWaiting => <[w := Running (mkFrame (call f) PcWoken)]> ts
          | _ => ts
          end
      | _ => ts
      end
  | _ => ts
  end.

Definition posted (a : Action) : list Event :=
  match a with
  | ADeleteLater => [DeferredDelete]
  | _ => []
  end.

(** The handler an assignment to [content] leaves behind. *)
Definition left (a : Action) : list Content :=
  match a with
  | ALeaveBehind h => [h]
  | _ => []
  end.

(** A body run on thread [who] as one step.  It waits while a mutex it
    locks is owned by a worker. *)
Definition runBody (who : Thread) (m : M unit) (c : Config) : Result :=
  match m (this c) with
  | NullDeref acts =>
      if existsb (blockedOn (threads c)) acts then Disabled else Crash
  | Done _ o acts =>
      if existsb (blockedOn (threads c)) acts then Disabled
      else Next {| this := o; alive := alive c; onGui := onGui c;
                   queue := queue c ++ flat_map posted acts;
                   threads := fold_left wake acts (threads c);
                   trace := trace c ++ map (pair who) acts;
                   leftBehind := leftBehind c ++ flat_map left acts |}
  end.

Definition callable (c : Config) (who : Thread) : bool :=
  match who with
  | UIThread => true
  | Worker t =>
      match threads c !! t with
      | Some Idle | Some (Returned _ _) => true
      | _ => false
      end
  end.

Definition setThread (who : Thread) (s : ThreadState) (c : Config) : Config :=
  match who with
  | UIThread => c
  | Worker t => with_threads (<[t := s]> (threads c)) c
  end.

(** The caller leaves the operation with [v]. *)
Definition returns (who : Thread) (op : Op) (v : RetVal) (acts : list Action)
    (c : Config) : Config :=
  setThread who (Returned op v) (logged who (acts ++ [AReturn op v]) c).

(** The caller takes the marshaling branch. *)
Definition enter (who : Thread) (m : MetaCall) (c : Config) : Result :=
  match who with
  | UIThread => Disabled
  | Worker t => Next (setThread who (Running (mkFrame m PcSetMutex)) c)
  end.

(** The caller runs [body] itself; the body records what it returns. *)
Definition inPlace (who : Thread) (op : Op) (body : M unit) (c : Config) : Result :=
  if alive c then
    match runBody who body c with
    | Next c1 => Next (setThread who (Returned op RVoid) c1)
    | r => r
    end
  else Crash.

(** [who] enters a public operation. *)
Definition begin (who : Thread) (op : Call) (c : Config) : Result :=
  if callable c who then
    match op with
    | Initialize fileName width height parameters isTransparent =>
        match initialize_prologue who fileName width height parameters isTransparent with
        | Refused msg => Next (returns who OpInitialize (RBool false) [ALog msg] c)
        | Marshal m => enter who m c
        end
    | Render time renderImage =>
        if onUIThread who then inPlace who OpRender (render_inPlace time renderImage) c
        else enter who (renderInvokableCall time renderImage) c
    | Reload =>
        if onUIThread who then inPlace who OpReload reload_inPlace c
        else enter who reloadInvokableCall c
    | Destroy => inPlace who OpDestroy destroy c
    end
  else Disabled.

(** [initialize] and [render] end by reading a member of the object,
    [return initializeResult] and [return renderResult]; [reload] ends
    without reading any. *)
Definition readsResult (m : MetaCall) : bool :=
  match m with
  | reloadInvokableCall => false
  | _ => true
  end.

(** Worker [t] executes the statement at its [pc]. *)
Definition advance (t : nat) (f : Frame) (c : Config) : Result :=
  let goto p c := with_threads (<[t := Running (mkFrame (call f) p)]> (threads c)) c in
  let touching r := if alive c then r else Crash in
  match pc f with
  | PcSetMutex =>
      touching (Next (goto PcSetWaitCondition (with_this (set_mutex (Some t) (this c)) c)))
  | PcSetWaitCondition =>
      touching (Next (goto PcLock (with_this (set_waitCondition (Some t) (this c)) c)))
  | PcLock =>
      Next (goto (match call f with
                  | initializeInvokableCall _ _ _ _ _ => PcMoveToThread
                  | _ => PcInvoke
                  end) c)
  | PcMoveToThread => touching (Next (goto PcInvoke (with_onGui true c)))
  | PcInvoke =>
      touching (Next (goto PcWait (with_queue (queue c ++ [MetaCallEvent (call f)]) c)))
  | PcWait => Next (goto PcWaiting c)
  | PcWaiting => Disabled
  | PcWoken => Next (goto PcUnlock c)
  | PcUnlock => Next (goto PcClearMutex c)
  | PcClearMutex =>
      touching (Next (goto PcClearWaitCondition (with_this (set_mutex None (this c)) c)))
  | PcClearWaitCondition =>
      touching (Next (goto PcReturn (with_this (set_waitCondition None (this c)) c)))
  | PcReturn =>
      let r := Next (returns (Worker t) (opOf (call f)) (resultOf (call f) (this c)) [] c) in
      if readsResult (call f) then touching r else r
  end.

(** [EffectsImpl::~EffectsImpl], with what [QObject::~QObject] does to the
    events still posted to the object and to the connections of the
    handlers left behind: it drops them.  Those handlers are not deleted. *)
Definition destructor (c : Config) : Config :=
  {| this := set_content None (this c); alive := false; onGui := onGui c;
     queue := [];
     threads := threads c;
     trace := trace c ++ match content (this c) with
                         | Some _ => [(UIThread, ADeleteContent)]
                         | None => []
                         end;
     leftBehind := [] |}.

(** The GUI event loop delivers the event at the head of the queue. *)
Definition deliver (c : Config) : Result :=
  if onGui c then
    match queue c with
    | MetaCallEvent m :: q => runBody UIThread (invoke m) (with_queue q c)
    | DeferredDelete :: _ => Next (destructor c)
    | [] => Disabled
    end
  else Disabled.

Definition without (s : Signal) (l : list Signal) : list Signal :=
  List.filter (fun x => negb (Signal_eqb x s)) l.

(** The handler that emits a signal: the one [content] points to, or the
    [i]-th of those left behind. *)
Inductive Source :=
| Held
| Stray (i : nat).

Definition emitter (from : Source) (c : Config) : option Content :=
  match from with
  | Held => content (this c)
  | Stray i => leftBehind c !! i
  end.

(** The emitter [h] has emitted [s]. *)
Definition emitted (from : Source) (s : Signal) (h : Content) (c : Config) : Config :=
  let h' := set_pending (without s (pending h)) h in
  match from with
  | Held => with_this (set_content (Some h') (this c)) c
  | Stray i => with_leftBehind (<[i := h']> (leftBehind c)) c
  end.

(** A handler emits [s(ok)] for an outstanding load; a connected
    [initializeComplete(ok)] runs at once, on the GUI thread. *)
Definition emitSignal (from : Source) (s : Signal) (ok : bool) (c : Config) : Result :=
  match emitter from c with
  | Some h =>
      if existsb (Signal_eqb s) (pending h) then
        let c1 := emitted from s h c in
        if existsb (Signal_eqb s) (connections h)
        then runBody UIThread (initializeComplete ok) c1
        else Next c1
      else Disabled
  | None => Disabled
  end.

(** The steps: [who] enters an operation; worker [t] executes its next
    statement; the GUI loop delivers an event; the content emits a
    signal; a handler left behind emits a signal. *)
Inductive Label :=
| LBegin (who : Thread) (op : Call)
| LThread (t : nat)
| LLoop
| LSignal (s : Signal) (ok : bool)
| LStray (i : nat) (s : Signal) (ok : bool).

Definition exec (l : Label) (c : Config) : Result :=
  match l with
  | LBegin who op => begin who op c
  | LThread t =>
      match threads c !! t with
      | Some (Running f) => advance t f c
      | _ => Disabled
      end
  | LLoop => deliver c
  | LSignal s ok => emitSignal Held s ok c
  | LStray i s ok => emitSignal (Stray i) s ok c
  end.

Fixpoint run (ls : list Label) (c : Config) : Result :=
  match ls with
  | [] => Next c
  | l :: ls' =>
      match exec l c with
      | Next c' => run ls' c'
      | r => r
      end
  end.

(** ** Vocabulary of the properties *)

(** What the assignment to [content] leaves behind. *)
Definition leaving (old : option Content) : list Action :=
  match old with
  | Some h => [ALeaveBehind h]
  | None => []
  end.

(** The signal a load is completed by, in and out of plain mode. *)
Definition completionSignal (isPlain : bool) : Signal :=
  if isPlain then contentPreLoadFinished else contentLoadFinished.

(** The handlers a body has constructed, in order. *)
Fixpoint constructed (acts : list Action) : list Variant :=
  match acts with
  | [] => []
  | ANewContent v _ _ :: rest => v :: constructed rest
  | _ :: rest => constructed rest
  end.

Definition variantOf (o : EffectsImpl) : option Variant :=
  match content o with
  | Some h => Some (variant h)
  | None => None
  end.

(** A body that leaves the dynamic type of the content alone. *)
Definition keepsVariant {A} (m : M A) : Prop :=
  forall o a o' acts, m o = Done a o' acts -> variantOf o' = variantOf o.

(** Schedules: worker [t] runs [n] statements. *)
Definition steps (t : nat) (n : nat) : list Label := replicate n (LThread t).

(** A marshaled [render] by worker [t] with nothing else going on: the
    five statements up to and including the wait, the delivery of
    [renderInvokable], the five statements from the wake-up to the
    return. *)
Definition marshaledRender (t : nat) (time : TimePoint) (renderImage : Image)
    : list Label :=
  LBegin (Worker t) (Render time renderImage) :: steps t 5 ++ LLoop :: steps t 5.

(** The handler after [renderInvokable(time, renderImage)], and what its
    [renderContent] answered. *)
Definition rendered (time : TimePoint) (renderImage : Image) (h : Content)
    : bool * Content :=
  let size := mkQSize (imageWidth renderImage) (imageHeight renderImage) in
  let r := renderContent time renderImage (setContentSize size (engine h)) in
  (fst r, set_engine (snd r) h).

Definition isRunning (s : ThreadState) : bool :=
  match s with
  | Running _ => true
  | _ => false
  end.



(** No worker is inside a call. *)
Definition quiescent (c : Config) : bool :=
  forallb (fun s => negb (isRunning s)) (threads c).

(** The object exists on the GUI thread with handler [h], no call is in
    progress on it and no event is posted to it. *)
Definition resting (c : Config) (h : Content) : Prop :=
  alive c = true /\ onGui c = true /\ queue c = [] /\
  content (this c) = Some h /\
  mutex (this c) = None /\ waitCondition (this c) = None /\
  quiescent c = true.

Definition isBegin (l : Label) : bool :=
  match l with
  | LBegin _ _ => true
  | _ => false
  end.

(** Executions in which the callers synchronize their access to the
    object: an operation is entered only when no other is in progress. *)
Definition exec_sync (l : Label) (c : Config) : Result :=
  if isBegin l && negb (quiescent c) then Disabled else exec l c.

Fixpoint run_sync (ls : list Label) (c : Config) : Result :=
  match ls with
  | [] => Next c
  | l :: ls' =>
      match exec_sync l c with
      | Next c' => run_sync ls' c'
      | r => r
      end
  end.

(** Where a worker is while [this->mutex], respectively
    [this->waitCondition], holds the address of its own. *)
Definition mutexRange (p : Pc) : bool :=
  match p with
  | PcSetMutex | PcClearWaitCondition | PcReturn => false
  | _ => true
  end.

Definition waitRange (p : Pc) : bool :=
  match p with
  | PcSetMutex | PcSetWaitCondition | PcReturn => false
  | _ => true
  end.

(** A non-null pointer of the object is the address of a mutex or wait
    condition that exists: its worker is inside the marshaling branch, at a
    statement in [rng]. *)
Definition pointsToLive (rng : Pc -> bool) (ts : list ThreadState)
    (ptr : option RecordId) : Prop :=
  forall t, ptr = Some t ->
    exists f, ts !! t = Some (Running f) /\ rng (pc f) = true.

Definition pointersLive (c : Config) : Prop :=
  pointsToLive mutexRange (threads c) (mutex (this c)) /\
  pointsToLive waitRange (threads c) (waitCondition (this c)).

(** No load signal is outstanding: neither the content nor a handler left
    behind has one to emit. *)
Definition calm (hs : list Content) : Prop :=
  Forall (fun h => pending h = []) hs.

Definition settled (c : Config) : Prop :=
  (forall h, content (this c) = Some h -> pending h = []) /\
  calm (leftBehind c).







(** Histories of [render] calls made one after the other, each on the
    GUI thread or from a worker. *)
Definition renderSchedule (call : Thread * TimePoint * Image) : list Label :=
  match call with
  | (UIThread, time, renderImage) => [LBegin UIThread (Render time renderImage)]
  | (Worker t, time, renderImage) => marshaledRender t time renderImage
  end.

Definition schedule (calls : list (Thread * TimePoint * Image)) : list Label :=
  flat_map renderSchedule calls.

(** What the renders of a history return when each worker is given the
    answer of [renderContent] to its own call and each render on the GUI
    thread the value [v] of [renderResult]; [h] is the handler. *)
Fixpoint expected (calls : list (Thread * TimePoint * Image)) (h : Content) (v : bool)
    : list (Thread * bool) :=
  match calls with
  | [] => []
  | (UIThread, time, renderImage) :: rest =>
      (UIThread, v) :: expected rest (snd (rendered time renderImage h)) v
  | (Worker t, time, renderImage) :: rest =>
      (Worker t, fst (rendered time renderImage h))
        :: expected rest (snd (rendered time renderImage h))
             (fst (rendered time renderImage h))
  end.

(** The values returned by [render], with the thread that called. *)
Fixpoint renderReturns (tr : list (Thread * Action)) : list (Thread * bool) :=
  match tr with
  | [] => []
  | (who, AReturn OpRender (RBool b)) :: rest => (who, b) :: renderReturns rest
  | _ :: rest => renderReturns rest
  end.

(** Each [render] on the GUI thread returns [v], the value returned by
    the latest [render] of a worker before it, or the initial [v]. *)
Fixpoint inPlaceReturnsLatest (v : bool) (l : list (Thread * bool)) : Prop :=
  match l with
  | [] => True
  | (UIThread, b) :: rest => b = v /\ inPlaceReturnsLatest v rest
  | (Worker _, b) :: rest => inPlaceReturnsLatest b rest
  end.





(** What step [l] stores in [renderResult] when taken in [c]: the answer
    of [renderContent] to the [renderInvokable] it runs, if it runs one --
    a [render] on the GUI thread, or the delivery of a marshaled one -- and
    both pointers of the object are set. *)
Definition storedBy (l : Label) (c : Config) : option bool :=
  match mutex (this c), waitCondition (this c), content (this c) with
  | Some _, Some _, Some h =>
      match l with
      | LBegin UIThread (Render time renderImage) =>
          Some (fst (rendered time renderImage h))
      | LLoop =>
          match queue c with
          | MetaCallEvent (renderInvokableCall time renderImage) :: _ =>
              Some (fst (rendered time renderImage h))
          | _ => None
          end
      | _ => None
      end
  | _, _, _ => None
  end.

(** What the latest such step of an execution has stored; [v] if there
    was none. *)
Fixpoint lastStored (ls : list Label) (c : Config) (v : bool) : bool :=
  match ls with
  | [] => v
  | l :: rest =>
      match exec l c with
      | Next c' =>
          lastStored rest c' (match storedBy l c with
                              | Some b => b
                              | None => v
                              end)
      | _ => v
      end
  end.

(** A body that leaves [renderResult] alone. *)
Definition keepsRenderResult {A} (m : M A) : Prop :=
  forall o a o' acts, m o = Done a o' acts -> renderResult o' = renderResult o.

(** What the bodies run as one step do to the object and to the queue:
    the pointers stay, a content stays a content, and only [deleteLater]
    posts. *)
Definition tame (m : M unit) : Prop :=
  forall o o' acts,
    m o = Done tt o' acts ->
    mutex o' = mutex o /\ waitCondition o' = waitCondition o /\
    (content o' = None -> content o = None) /\
    (forall e, In e (flat_map posted acts) -> e = DeferredDelete).

Definition silent (m : M unit) : Prop :=
  forall o o' acts, m o = Done tt o' acts -> flat_map posted acts = [].

(** Once the object is gone, no event is posted to it, it has no content
    and no handler is connected to it. *)
Definition disposedClean (c : Config) : Prop :=
  alive c = false ->
  queue c = [] /\ content (this c) = None /\ leftBehind c = [].

(** Neither wiring nor loading. *)
Definition setupOnly (a : Action) : bool :=
  match a with
  | AConnect _ | ALoadContent _ => false
  | _ => true
  end.

(** ** Further vocabulary *)

(** The calls made on the content. *)
Definition touchesContent (a : Action) : bool :=
  match a with
  | ANewContent _ _ _ | ASetTransparent | AConnect _ | ALoadContent _
  | ASetContentSize _ | ARenderContent _ _ | AReload | ADeleteContent => true
  | _ => false
  end.

(** Every call made on the content was made by the GUI thread. *)
Definition contentOnGui (tr : list (Thread * Action)) : Prop :=
  Forall (fun e => touchesContent (snd e) = true -> fst e = UIThread) tr.

(** How many times [delete content] has deleted a content. *)
Fixpoint deletions (tr : list (Thread * Action)) : nat :=
  match tr with
  | [] => 0
  | (_, ADeleteContent) :: rest => S (deletions rest)
  | _ :: rest => deletions rest
  end.

Definition isDelete (a : Action) : bool :=
  match a with
  | ADeleteContent => true
  | _ => false
  end.

(** A marshaled [initialize] by worker [t] with nothing else going on: the
    six statements up to and including the wait, the delivery of
    [initializeInvokable], the signal [s(ok)] of the content, the five
    statements from the wake-up to the return. *)
Definition marshaledInitialize (t : nat) (fileName : string) (width height : Z)
    (parameters : Parameters) (isTransparent : bool) (s : Signal) (ok : bool)
    : list Label :=
  LBegin (Worker t) (Initialize fileName width height parameters isTransparent)
    :: steps t 6 ++ [LLoop; LSignal s ok] ++ steps t 5.

(** A marshaled [reload] by worker [t], up to the delivery of
    [reloadInvokable]. *)
Definition reloadPosted (t : nat) : list Label :=
  LBegin (Worker t) Reload :: steps t 5 ++ [LLoop].

(** The locator is one [initializeInvokable] constructs a handler for. *)
Definition supported (url : QUrl) : bool :=
  QString.endsWith (path url) ".html" || QString.endsWith (path url) ".htm"
  || negb (isLocalFile url) || QString.endsWith (path url) ".qml".

(** A body that deletes no content. *)
Definition deletesNothing (m : M unit) : Prop :=
  forall o o' acts,
    m o = Done tt o' acts -> forallb (fun a => negb (isDelete a)) acts = true.

(** The content has been deleted at most once, and only by the destructor. *)
Definition deletedOnce (c : Config) : Prop :=
  disposedClean c /\ deletions (trace c) <= (if alive c then 0 else 1).

(** The worker has a statement that accesses the object ahead of it: any
    worker inside the marshaling branch but a [reload] at its return. *)
Definition accessAhead (f : Frame) : bool :=
  match pc f with
  | PcReturn => readsResult (call f)
  | _ => true
  end.

Definition inCall (t : nat) (ts : list ThreadState) : Prop :=
  exists f, ts !! t = Some (Running f) /\ accessAhead f = true.

(** Worker [t] is inside a call on an object that no longer exists, with
    an access to the object ahead of it. *)
Definition orphaned (t : nat) (c : Config) : Prop :=
  alive c = false /\ inCall t (threads c).

(** The object exists, no call is in progress on it and no event is posted
    to it. *)
Definition atRest (c : Config) : Prop :=
  alive c = true /\ queue c = [] /\
  mutex (this c) = None /\ waitCondition (this c) = None /\
  quiescent c = true.

(** The locators [initializeInvokable] constructs a [WebContent] for. *)
Definition webLocator (url : QUrl) : bool :=
  QString.endsWith (path url) ".html" || QString.endsWith (path url) ".htm"
  || negb (isLocalFile url).

(** The handler [initializeInvokable] leaves in [content] for a supported
    locator: constructed, made transparent if it is a [WebContent] and
    transparency was asked for, connected, and loading. *)
Definition loading (url : QUrl) (size : QSize) (parameters : Parameters)
    (isPlain isTransparent : bool) : Content :=
  if webLocator url then
    {| variant := WebContentV;
       engine := loadContent url
                   ((if isTransparent then setTransparent else fun e => e)
                      (construct WebContentV size parameters));
       connections := [completionSignal isPlain];
       pending := loadSignals |}
  else
    {| variant := QmlContentV;
       engine := loadContent url (construct QmlContentV size parameters);
       connections := [completionSignal isPlain];
       pending := loadSignals |}.

(** The handler an assignment to [content] leaves behind. *)
Definition behind (old : option Content) : list Content :=
  match old with
  | Some h => [h]
  | None => []
  end.

(** What [initializeInvokable] does for a supported locator, in order:
    the construction, replacing [old]; [setTransparent] for a transparent
    [WebContent]; the connection of the completion signal; the load. *)
Definition wiring (url : QUrl) (size : QSize) (parameters : Parameters)
    (isPlain isTransparent : bool) (old : option Content) : list Action :=
  ANewContent (if webLocator url then WebContentV else QmlContentV) size parameters
    :: leaving old
    ++ (if webLocator url && isTransparent then [ASetTransparent] else [])
    ++ [AConnect (completionSignal isPlain); ALoadContent url].

(** Actions that take no lock, wake nobody and post nothing. *)
Definition quiet (a : Action) : bool :=
  match a with
  | ALock _ | AWakeAll _ | ADeleteLater => false
  | _ => true
  end.

(** A marshaled [initialize] by worker [t], up to the delivery of
    [initializeInvokable]. *)
Definition initializePosted (t : nat) (fileName : string) (width height : Z)
    (parameters : Parameters) (isTransparent : bool) : list Label :=
  LBegin (Worker t) (Initialize fileName width height parameters isTransparent)
    :: steps t 6 ++ [LLoop].


(** A content exists only on an object that lives on the GUI thread. *)
Definition contentAfterMove (c : Config) : Prop :=
  content (this c) = None \/ onGui c = true.

(** A body that constructs no content where there is none. *)
Definition keepsAbsent (m : M unit) : Prop :=
  forall o o' acts, m o = Done tt o' acts -> content o = None -> content o' = None.

End Bridge.

(** ** Images

    [getImageTypeMap] and [setImage] call the content on the thread of
    their caller; what the content does with an image is its own. *)

Class ContentImages `{ContentImpl} := {
  ImageTypeMap : Type;
  content_getImageTypeMap : Engine -> ImageTypeMap;
  content_setImage : string -> Image -> Engine -> Engine
}.

Section Images.

Context {QU : QtUrl} {CI : ContentImpl} {IM : ContentImages}.

(** [EffectsImpl::getImageTypeMap] *)
Definition getImageTypeMap : M ImageTypeMap :=
  withContent (fun c => ret (content_getImageTypeMap (engine c))).

(** [EffectsImpl::setImage] *)
Definition setImage (name : string) (image : Image) : M unit :=
  updContent (fun c => set_engine (content_setImage name image (engine c)) c).

(** A caller on thread [who] sets an image: no hand-off, the body runs on
    the calling thread. *)
Definition setImage_inPlace (who : Thread) (name : string) (image : Image)
    (c : Config) : Result :=
  if alive c then runBody who (setImage name image) c else Crash.

End Images.

(** ** A scripted stand-in for the collaborators

    Enough of a locator and of a content handler to run the bridge on
    concrete inputs: a locator is a scheme and the text after the first
    colon; a handler answers its renders from a script given as its
    parameters. *)

Module Mock.

Record Url := mkUrl { u_scheme : string; u_rest : string }.

Fixpoint splitScheme (s : string) : option (string * string) :=
  match s with
  | EmptyString => None
  | String a r =>
      if (a =? ":")%char then Some (EmptyString, r)
      else match splitScheme r with
           | Some (x, y) => Some (String a x, y)
           | None => None
           end
  end.

Definition parse (s : string) : Url :=
  match splitScheme s with
  | Some (String a x, y) => mkUrl (String a x) y
  | _ => mkUrl "" s
  end.

Definition absolute (f : string) : string :=
  match f with
  | EmptyString => EmptyString
  | String a _ => if (a =? "/")%char then f else "/cwd/" ++ f
  end.

#[export] Instance url : QtUrl := {|
  QUrl := Url;
  QUrl_fromString := parse;
  scheme := u_scheme;
  path := u_rest;
  toString := fun u => match u_scheme u with
                       | EmptyString => u_rest u
                       | sc => sc ++ ":" ++ u_rest u
                       end;
  toString_RemoveScheme := u_rest;
  fromLocalFile := mkUrl "file";
  isValid := fun u => negb (u_rest u =? "")%string;
  isLocalFile := fun u => (u_scheme u =? "file")%string;
  absoluteFilePath := absolute
|}.

#[export] Instance handler : ContentImpl := {|
  TimePoint := Z;
  Parameters := list bool;
  Image := QSize;
  imageWidth := width;
  imageHeight := height;
  Engine := list bool;
  construct := fun _ _ script => script;
  setTransparent := fun e => e;
  loadContent := fun _ e => e;
  setContentSize := fun _ e => e;
  renderContent := fun _ _ e => match e with
                                | b :: rest => (b, rest)
                                | [] => (false, [])
                                end;
  reload := fun e => e
|}.

Definition frame : Image := mkQSize 640 480.

Definition instant (z : Z) : TimePoint := z.

Definition script (answers : list bool) : Parameters := answers.

Definition qmlScene : QUrl := fromLocalFile "/cwd/Scene.QML".

(** A loaded document handler with the renders [script] still to answer. *)
Definition loaded (script : list bool) : Content :=
  mkContent WebContentV script [contentLoadFinished] [].

(** Worker 0 initializes [fileName] with render script [script]: the
    hand-off and the delivery of [initializeInvokable]; then both load
    signals and the return. *)
Definition initializing (fileName : string) (script : list bool) : list Label :=
  LBegin (Worker 0) (Initialize fileName 640 480 script false)
    :: steps 0 6 ++ [LLoop].

Definition initialized (fileName : string) (script : list bool) : list Label :=
  initializing fileName script
    ++ LSignal contentPreLoadFinished true
    :: LSignal contentLoadFinished true
    :: steps 0 5.

(** Worker 0 initializes a QML scene in plain mode; the full-load signal
    comes first. *)
Definition plainInitializing : list Label :=
  LBegin (Worker 0) (Initialize "plain:scene.qml" 640 480 (script []) true)
    :: steps 0 6 ++ [LLoop; LSignal contentLoadFinished true].

(** After a successful [initialize], workers 0 and 1 both call [render]
    and both reach the wait. *)
Definition twoCallers : list Label :=
  initialized "scene.html" [true; false]
    ++ LBegin (Worker 0) (Render (instant 0) frame) :: steps 0 5
    ++ LBegin (Worker 1) (Render (instant 1) frame) :: steps 1 5.


Definition configAfter (ls : list Label) (n : nat) : Config :=
  match run ls (init n) with
  | Next c => c
  | _ => init n
  end.

(** A scene that declares no images and ignores those it is given. *)
#[export] Instance images : ContentImages := {|
  ImageTypeMap := list string;
  content_getImageTypeMap := fun _ => [];
  content_setImage := fun _ _ e => e
|}.

Definition htmlScene : QUrl := fromLocalFile "/cwd/scene.html".


Definition notes : QUrl := fromLocalFile "/cwd/notes.txt".

Definition pixels : Image := frame.

(** After a successful [initialize], worker 0 calls [render] and sleeps;
    [destroy] is called on the GUI thread; the loop delivers
    [renderInvokable] and then the deferred delete. *)
Definition destroyedDuringRender : list Label :=
  initialized "scene.html" [true]
    ++ LBegin (Worker 0) (Render (instant 0) frame) :: steps 0 5
    ++ [LBegin UIThread Destroy; LLoop; LLoop].

(** After a successful [initialize] the object is destroyed. *)
Definition destroyed : list Label :=
  initialized "scene.html" [true] ++ [LBegin (Worker 0) Destroy; LLoop].

(** ... or [destroy] is called twice before the loop runs. *)
Definition destroyedTwice : list Label :=
  initialized "scene.html" [true]
    ++ [LBegin (Worker 0) Destroy; LBegin UIThread Destroy; LLoop].

(** Worker 0 initializes a QML scene in plain mode. *)
Definition plainScene : QUrl := fromLocalFile "/cwd/scene.qml".

(** While worker 0 is asleep in [initialize], before any load signal,
    [render] is called on the GUI thread; worker 0 then runs to its
    return. *)
Definition overlapped : list Label :=
  initializing "scene.html" [true; false]
    ++ LBegin UIThread (Render (instant 0) frame) :: steps 0 5.

(** After a successful [initialize], worker 0 calls [reload], is woken by
    the load signal and runs up to its return; [destroy] is called and the
    loop delivers the deferred delete. *)
Definition destroyedDuringReload : list Label :=
  initialized "scene.html" [true]
    ++ reloadPosted 0
    ++ LSignal contentLoadFinished true :: steps 0 4
    ++ [LBegin UIThread Destroy; LLoop].

(** After a successful [initialize], [reload] is called on the GUI thread
    and worker 0 calls [render]; the load signal comes before the loop
    delivers [renderInvokable]. *)
Definition renderDuringLoad : list Label :=
  initialized "scene.html" [true]
    ++ LBegin UIThread Reload
    :: LBegin (Worker 0) (Render (instant 0) frame) :: steps 0 5
    ++ LSignal contentLoadFinished true :: steps 0 5.

(** After a successful [initialize], [reload] is called on the GUI
    thread; its load is outstanding. *)
Definition reloaded : list Label :=
  initialized "scene.html" [true] ++ [LBegin UIThread Reload].

Definition nextScene : QUrl := fromLocalFile "/cwd/next.html".

End Mock.

(** * Properties *)

(** ** Suffix tests *)

Lemma endsWith_fold (s s' suffix : string) :
  QString.lower s = QString.lower s' ->
  QString.endsWith s suffix = QString.endsWith s' suffix.
Proof. unfold QString.endsWith, QString.folded. now intros ->. Qed.

Lemma qml_excludes_html (p : string) :
  QString.endsWith p ".qml" = true ->
  QString.endsWith p ".html" = false /\ QString.endsWith p ".htm" = false.
Proof.
  unfold QString.endsWith. generalize (QString.folded p) as x. intros x.
  change (QString.folded ".qml") with ["l"; "m"; "q"; "."]%char.
  change (QString.folded ".html") with ["l"; "m"; "t"; "h"; "."]%char.
  change (QString.folded ".htm") with ["m"; "t"; "h"; "."]%char.
  destruct x as [|a [|b [|c x]]]; cbn [QString.startsWith];
    rewrite ?andb_false_r; try discriminate.
  destruct (Ascii.eqb_spec "l" a) as [<-|]; [|discriminate].
  destruct (Ascii.eqb_spec "m" b) as [<-|]; [|discriminate].
  destruct (Ascii.eqb_spec "q" c) as [<-|]; [|discriminate].
  auto.
Qed.

Section SlotFacts.

Context {QU : QtUrl} {CI : ContentImpl}.

(** What [initializeInvokable] does, branch by branch. *)
Lemma initializeInvokable_web url size parameters isPlain isTransparent o :
  QString.endsWith (path url) ".html" || QString.endsWith (path url) ".htm"
    || negb (isLocalFile url) = true ->
  initializeInvokable url size parameters isPlain isTransparent o =
  Done tt
    (set_content
       (Some {| variant := WebContentV;
                engine := loadContent url
                            ((if isTransparent then setTransparent else fun e => e)
                               (construct WebContentV size parameters));
                connections := [completionSignal isPlain];
                pending := loadSignals |}) o)
    (ANewContent WebContentV size parameters
       :: leaving (content o)
       ++ (if isTransparent then [ASetTransparent] else [])
       ++ [AConnect (completionSignal isPlain); ALoadContent url]).
Proof.
  intros E. unfold initializeInvokable. rewrite E.
  destruct o as [[h|] m w ir rr], isPlain, isTransparent; reflexivity.
Qed.

Lemma initializeInvokable_qml url size parameters isPlain isTransparent o :
  QString.endsWith (path url) ".html" || QString.endsWith (path url) ".htm"
    || negb (isLocalFile url) = false ->
  QString.endsWith (path url) ".qml" = true ->
  initializeInvokable url size parameters isPlain isTransparent o =
  Done tt
    (set_content
       (Some {| variant := QmlContentV;
                engine := loadContent url (construct QmlContentV size parameters);
                connections := [completionSignal isPlain];
                pending := loadSignals |}) o)
    (ANewContent QmlContentV size parameters
       :: leaving (content o)
       ++ [AConnect (completionSignal isPlain); ALoadContent url]).
Proof.
  intros E1 E2. unfold initializeInvokable. rewrite E1, E2.
  destruct o as [[h|] m w ir rr], isPlain; reflexivity.
Qed.

Lemma initializeInvokable_unsupported url size parameters isPlain isTransparent o :
  QString.endsWith (path url) ".html" || QString.endsWith (path url) ".htm"
    || negb (isLocalFile url) = false ->
  QString.endsWith (path url) ".qml" = false ->
  initializeInvokable url size parameters isPlain isTransparent o =
  Done tt o [ALog (unsupportedMessage ++ path url)].
Proof.
  intros E1 E2. unfold initializeInvokable. rewrite E1, E2. reflexivity.
Qed.

Lemma keepsVariant_renderComplete r : keepsVariant (renderComplete r).
Proof.
  intros o a o' acts. unfold renderComplete, bind, gets. cbn.
  destruct (mutex o), (waitCondition o); cbn; intros [= <- <- <-]; reflexivity.
Qed.

Lemma keepsVariant_initializeComplete r : keepsVariant (initializeComplete r).
Proof.
  intros o a o' acts. unfold initializeComplete, bind, gets. cbn.
  destruct (waitCondition o); cbn; [intros [= <- <- <-]; reflexivity | discriminate].
Qed.

Lemma keepsVariant_reloadInvokable : keepsVariant reloadInvokable.
Proof.
  intros o a o' acts. unfold reloadInvokable, content_reload, updContent,
    withContent, variantOf, bind, gets. cbn.
  destruct (content o); cbn; [intros [= <- <- <-]; reflexivity | discriminate].
Qed.

Lemma keepsVariant_renderInvokable time renderImage :
  keepsVariant (renderInvokable time renderImage).
Proof.
  intros o a o' acts. unfold renderInvokable, content_setContentSize,
    content_renderContent, renderComplete, updContent, withContent, variantOf,
    bind, gets. cbn.
  destruct (content o); cbn; [|discriminate].
  destruct (mutex o), (waitCondition o); cbn; intros [= <- <- <-]; reflexivity.
Qed.

(** What a signal of the content does to a worker asleep in [initialize],
    [h] being connected as [initializeInvokable] connects it. *)
Lemma signal_completes isPlain c h s ok t m :
  content (this c) = Some h ->
  connections h = [completionSignal isPlain] ->
  existsb (Signal_eqb s) (pending h) = true ->
  mutex (this c) = Some t -> waitCondition (this c) = Some t ->
  threads c !! t = Some (Running (mkFrame m PcWaiting)) ->
  exists c',
    exec (LSignal s ok) c = Next c' /\
    if Signal_eqb s (completionSignal isPlain)
    then initializeResult (this c') = ok /\
         threads c' !! t = Some (Running (mkFrame m PcWoken))
    else initializeResult (this c') = initializeResult (this c) /\
         threads c' = threads c.
Proof.
  intros C Cn Pe Mx W Lk.
  destruct c as [[ct mx w ir rr] al g q ts tr]; cbn in C, Mx, W, Lk; subst.
  cbn [exec]. unfold emitSignal. cbn [emitter emitted this content]. rewrite Pe, Cn.
  cbn [existsb]. rewrite orb_false_r.
  destruct (Signal_eqb s (completionSignal isPlain)).
  - unfold runBody. cbn. unfold held. rewrite Lk. cbn.
    eexists. split; [reflexivity|]. cbn. split; [reflexivity|].
    apply list_lookup_insert_eq. eapply lookup_lt_Some; eauto.
  - eexists. split; [reflexivity|]. split; reflexivity.
Qed.

(** C5.  The variant is a function of the case-folded path suffix and of
    whether the locator is a local file: [.html], [.htm] or a locator that
    is not a local file constructs a [WebContent]; [.qml] on a local file
    constructs a [QmlContent]; two locators with the same case-folded path
    and locality construct the same; at most one handler is constructed
    per [initializeInvokable], and no other slot changes the dynamic type
    of the content. *)
Theorem variant_selection url size parameters isPlain isTransparent o :
  exists o' acts,
    initializeInvokable url size parameters isPlain isTransparent o
      = Done tt o' acts /\
    (QString.endsWith (path url) ".html" = true \/
     QString.endsWith (path url) ".htm" = true \/
     isLocalFile url = false ->
     constructed acts = [WebContentV] /\ variantOf o' = Some WebContentV) /\
    (isLocalFile url = true -> QString.endsWith (path url) ".qml" = true ->
     constructed acts = [QmlContentV] /\ variantOf o' = Some QmlContentV) /\
    length (constructed acts) <= 1 /\
    (forall url' o2,
       QString.lower (path url') = QString.lower (path url) ->
       isLocalFile url' = isLocalFile url ->
       exists o2' acts2,
         initializeInvokable url' size parameters isPlain isTransparent o2
           = Done tt o2' acts2 /\
         constructed acts2 = constructed acts) /\
    (forall time renderImage r,
       keepsVariant (renderInvokable time renderImage) /\
       keepsVariant reloadInvokable /\
       keepsVariant (initializeComplete r) /\
       keepsVariant (renderComplete r)).
Proof.
  assert (K : forall time renderImage r,
       keepsVariant (renderInvokable time renderImage) /\
       keepsVariant reloadInvokable /\
       keepsVariant (initializeComplete r) /\
       keepsVariant (renderComplete r)).
  { intros. repeat split.
    - apply keepsVariant_renderInvokable.
    - apply keepsVariant_reloadInvokable.
    - apply keepsVariant_initializeComplete.
    - apply keepsVariant_renderComplete. }
  destruct (QString.endsWith (path url) ".html" || QString.endsWith (path url) ".htm"
            || negb (isLocalFile url)) eqn:E1.
  - eexists _, _. split; [apply initializeInvokable_web; exact E1|].
    assert (C : forall old (b : bool) u, constructed
              (ANewContent WebContentV size parameters
                 :: leaving old
                 ++ (if b then [ASetTransparent] else [])
                 ++ [AConnect (completionSignal isPlain); ALoadContent u])
            = [WebContentV]) by (intros [] [] u; reflexivity).
    rewrite C. split; [|split; [|split; [|split]]].
    + intros _. split; reflexivity.
    + intros L Q. destruct (qml_excludes_html _ Q) as [H1 H2].
      rewrite H1, H2, L in E1. discriminate.
    + cbn. lia.
    + intros url' o2 P L. eexists _, _. split.
      * apply initializeInvokable_web.
        rewrite (endsWith_fold _ _ _ P), (endsWith_fold _ _ _ P), L. exact E1.
      * apply C.
    + exact K.
  - assert (N : ~ (QString.endsWith (path url) ".html" = true \/
                   QString.endsWith (path url) ".htm" = true \/
                   isLocalFile url = false)).
    { intros [H|[H|H]]; rewrite H in E1; cbn in E1;
        rewrite ?orb_true_r in E1; discriminate. }
    destruct (QString.endsWith (path url) ".qml") eqn:E2.
    + eexists _, _. split; [apply initializeInvokable_qml; assumption|].
      assert (C : forall old u, constructed
                (ANewContent QmlContentV size parameters
                   :: leaving old
                   ++ [AConnect (completionSignal isPlain); ALoadContent u])
              = [QmlContentV]) by (intros [] u; reflexivity).
      rewrite C. split; [|split; [|split; [|split]]].
      * intros H. contradiction.
      * intros _ _. split; reflexivity.
      * cbn. lia.
      * intros url' o2 P L. eexists _, _. split.
        -- apply initializeInvokable_qml.
           ++ rewrite (endsWith_fold _ _ _ P), (endsWith_fold _ _ _ P), L. exact E1.
           ++ rewrite (endsWith_fold _ _ _ P). exact E2.
        -- apply C.
      * exact K.
    + eexists _, _. split; [apply initializeInvokable_unsupported; assumption|].
      split; [|split; [|split; [|split]]].
      * intros H. contradiction.
      * intros _ H. discriminate.
      * cbn. lia.
      * intros url' o2 P L. eexists _, _. split.
        -- apply initializeInvokable_unsupported.
           ++ rewrite (endsWith_fold _ _ _ P), (endsWith_fold _ _ _ P), L. exact E1.
           ++ rewrite (endsWith_fold _ _ _ P). exact E2.
        -- reflexivity.
      * exact K.
Qed.

(** C6.  [initialize] reads the scheme of the raw identifier.  A [plain]
    scheme sets the plain flag and the identifier is parsed again without
    it; the flag travels with the posted call.  When what is left has a
    scheme shorter than two characters, the locator becomes the local-file
    locator of the absolute path; if that locator is not valid,
    [initialize] logs and returns [false] without marshaling anything.  A
    longer scheme leaves the locator as parsed. *)
Theorem resolveLocator_cases (fileName : string) :
  let url0 := QUrl_fromString fileName in
  let isPlain := (scheme url0 =? "plain")%string in
  let url1 := if isPlain then QUrl_fromString (toString_RemoveScheme url0) else url0 in
  let local := fromLocalFile (absoluteFilePath (toString url1)) in
  (scheme url0 = "plain" ->
     isPlain = true /\ url1 = QUrl_fromString (toString_RemoveScheme url0)) /\
  (forall url p t width height parameters isTransparent,
     resolveLocator fileName = Some (url, p) ->
     p = isPlain /\
     initialize_prologue (Worker t) fileName width height parameters isTransparent
       = Marshal (initializeInvokableCall url (mkQSize width height) parameters
                    isPlain isTransparent)) /\
  (String.length (scheme url1) < 2 -> isValid local = true ->
     resolveLocator fileName = Some (local, isPlain)) /\
  (String.length (scheme url1) < 2 -> isValid local = false ->
     resolveLocator fileName = None /\
     forall t c width height parameters isTransparent,
       callable c (Worker t) = true ->
       exec (LBegin (Worker t)
               (Initialize fileName width height parameters isTransparent)) c
       = Next (returns (Worker t) OpInitialize (RBool false)
                 [ALog ("Invalid URL: " ++ fileName)] c)) /\
  (2 <= String.length (scheme url1) ->
     resolveLocator fileName = Some (url1, isPlain)).
Proof.
  intros url0 isPlain url1 local.
  assert (R : resolveLocator fileName =
              if (String.length (scheme url1) <? 2)%nat
              then if negb (isValid local) then None else Some (local, isPlain)
              else Some (url1, isPlain)) by reflexivity.
  split; [|split; [|split; [|split]]].
  - intros E. subst url1 isPlain. rewrite E. cbn. split; reflexivity.
  - intros url p t width height parameters isTransparent E.
    assert (P : p = isPlain).
    { rewrite R in E. destruct (String.length (scheme url1) <? 2)%nat;
        [destruct (negb (isValid local))|]; congruence. }
    split; [exact P|]. unfold initialize_prologue. cbn [onUIThread].
    rewrite E, P. reflexivity.
  - intros S V. rewrite R. apply Nat.ltb_lt in S. rewrite S, V. reflexivity.
  - intros S V. apply Nat.ltb_lt in S.
    assert (N : resolveLocator fileName = None) by (rewrite R, S, V; reflexivity).
    split; [exact N|]. intros t c width height parameters isTransparent C.
    cbn [exec]. unfold begin, initialize_prologue. cbn [onUIThread].
    rewrite C, N. reflexivity.
  - intros S. rewrite R. apply Nat.ltb_ge in S. rewrite S. reflexivity.
Qed.

(** C7.  On the GUI thread [initialize] logs, returns [false] and does
    nothing else, whatever its arguments and whatever the state: the
    object, its thread affinity, the event queue and the workers are as
    before, so no locator was resolved, no handler constructed, no
    mutex or wait condition installed and nothing posted. *)
Theorem initialize_on_owner_thread
    fileName width height parameters isTransparent c :
  exists c',
    exec (LBegin UIThread
            (Initialize fileName width height parameters isTransparent)) c
      = Next c' /\
    this c' = this c /\ alive c' = alive c /\ onGui c' = onGui c /\
    queue c' = queue c /\ threads c' = threads c /\
    trace c' = (trace c ++ [(UIThread, ALog wrongThreadMessage);
                            (UIThread, AReturn OpInitialize (RBool false))])%list.
Proof.
  eexists. split; [reflexivity|]. repeat split.
Qed.

(** C8 (as the code has it).  [render] has no guard for an absent
    handler: with [content] null, [renderInvokable] calls through the null
    pointer, in place when [render] is called on the GUI thread and in the
    event loop when the call was posted by a worker; no value is returned
    to the caller. *)
Theorem render_without_content c time renderImage :
  content (this c) = None ->
  exec (LBegin UIThread (Render time renderImage)) c = Crash /\
  (forall q, onGui c = true ->
             queue c = MetaCallEvent (renderInvokableCall time renderImage) :: q ->
             exec LLoop c = Crash).
Proof.
  intros E. split.
  - cbn. unfold inPlace, runBody. destruct (alive c); [|reflexivity].
    unfold render_inPlace, renderInvokable, content_setContentSize, updContent,
      withContent, bind, gets. cbn. rewrite E. reflexivity.
  - intros q G Q. cbn. unfold deliver, runBody. rewrite G, Q. cbn.
    unfold renderInvokable, content_setContentSize, updContent,
      withContent, bind, gets. cbn. rewrite E. reflexivity.
Qed.

End SlotFacts.

(** ** Steps and invariants *)

Section StepFacts.

Context {QU : QtUrl} {CI : ContentImpl}.

Lemma run_invariant (P : Config -> Prop) :
  (forall l c c', P c -> exec l c = Next c' -> P c') ->
  forall ls c c', P c -> run ls c = Next c' -> P c'.
Proof.
  intros S ls. induction ls as [|l ls IH]; intros c c' Pc R.
  - now injection R as <-.
  - cbn [run] in R. destruct (exec l c) as [c1| |] eqn:E; try discriminate.
    eapply IH; [|exact R]. eapply S; eauto.
Qed.

Lemma runBody_Next who m c c' :
  runBody who m c = Next c' ->
  exists o acts,
    m (this c) = Done tt o acts /\
    existsb (blockedOn (threads c)) acts = false /\
    c' = {| this := o; alive := alive c; onGui := onGui c;
            queue := queue c ++ flat_map posted acts;
            threads := fold_left wake acts (threads c);
            trace := trace c ++ map (pair who) acts;
            leftBehind := leftBehind c ++ flat_map left acts |}.
Proof.
  unfold runBody.
  destruct (m (this c)) as [[] o acts|acts];
    destruct (existsb _ _) eqn:E; try discriminate.
  intros [= <-]. eauto.
Qed.

Lemma inPlace_Next who op m c c' :
  inPlace who op m c = Next c' ->
  alive c = true /\
  exists c1, runBody who m c = Next c1 /\ c' = setThread who (Returned op RVoid) c1.
Proof.
  unfold inPlace. destruct (alive c); [|discriminate].
  destruct (runBody who m c) as [c1| |]; try discriminate.
  intros [= <-]. eauto.
Qed.

Lemma initializeInvokable_shape url size parameters isPlain isTransparent o o' acts :
  initializeInvokable url size parameters isPlain isTransparent o = Done tt o' acts ->
  mutex o' = mutex o /\ waitCondition o' = waitCondition o /\
  (content o' = None -> content o = None) /\
  flat_map posted acts = [].
Proof.
  unfold initializeInvokable.
  destruct (QString.endsWith (path url) ".html" || QString.endsWith (path url) ".htm"
            || negb (isLocalFile url));
    [|destruct (QString.endsWith (path url) ".qml")];
    destruct o as [[h|] m w ir rr], isPlain, isTransparent; cbn; intros [= <- <-];
    repeat split; try discriminate; auto.
Qed.

Lemma renderInvokable_shape time renderImage o o' acts :
  renderInvokable time renderImage o = Done tt o' acts ->
  mutex o' = mutex o /\ waitCondition o' = waitCondition o /\
  (content o' = None -> content o = None) /\
  flat_map posted acts = [].
Proof.
  destruct o as [[h|] [m|] [w|] ir rr]; cbn; intros [= <- <-];
    repeat split; try discriminate; auto.
Qed.

Lemma reloadInvokable_shape o o' acts :
  reloadInvokable o = Done tt o' acts ->
  mutex o' = mutex o /\ waitCondition o' = waitCondition o /\
  (content o' = None -> content o = None) /\
  flat_map posted acts = [].
Proof.
  destruct o as [[h|] m w ir rr]; cbn; intros [= <- <-];
    repeat split; try discriminate; auto.
Qed.

Lemma initializeComplete_shape r o o' acts :
  initializeComplete r o = Done tt o' acts ->
  mutex o' = mutex o /\ waitCondition o' = waitCondition o /\
  (content o' = None -> content o = None) /\
  flat_map posted acts = [].
Proof.
  destruct o as [h m [w|] ir rr]; cbn; intros [= <- <-];
    repeat split; try discriminate; auto.
Qed.

Lemma invoke_silent m : silent (invoke m).
Proof.
  intros o o' acts E. destruct m; cbn [invoke] in E.
  - now apply initializeInvokable_shape in E.
  - now apply renderInvokable_shape in E.
  - now apply reloadInvokable_shape in E.
Qed.

Lemma silent_tame m :
  silent m ->
  (forall o o' acts, m o = Done tt o' acts ->
     mutex o' = mutex o /\ waitCondition o' = waitCondition o /\
     (content o' = None -> content o = None)) ->
  tame m.
Proof.
  intros S K o o' acts E. destruct (K _ _ _ E) as (A & B & C).
  repeat split; auto. rewrite (S _ _ _ E). intros e [].
Qed.

Lemma invoke_tame m : tame (invoke m).
Proof.
  apply silent_tame; [apply invoke_silent|].
  intros o o' acts E. destruct m; cbn [invoke] in E.
  - apply initializeInvokable_shape in E. tauto.
  - apply renderInvokable_shape in E. tauto.
  - apply reloadInvokable_shape in E. tauto.
Qed.

Lemma initializeComplete_tame r : tame (initializeComplete r).
Proof.
  intros o o' acts E. apply initializeComplete_shape in E.
  destruct E as (A & B & C & D). rewrite D. repeat split; auto. intros e [].
Qed.

Lemma render_inPlace_tame time renderImage : tame (render_inPlace time renderImage).
Proof.
  intros o o' acts. destruct o as [[h|] [m|] [w|] ir rr]; cbn; intros [= <- <-];
    repeat split; try discriminate; auto; intros e [].
Qed.

Lemma reload_inPlace_tame : tame reload_inPlace.
Proof.
  intros o o' acts. destruct o as [[h|] m w ir rr]; cbn; intros [= <- <-];
    repeat split; try discriminate; auto; intros e [].
Qed.

Lemma destroy_tame : tame destroy.
Proof.
  intros o o' acts. cbn. intros [= <- <-]. repeat split; auto.
  intros e [<-|[]]. reflexivity.
Qed.

(** Case analysis of a step [E : exec l c = Next c']. *)
Ltac body_cases E :=
  let o := fresh "o" in let acts := fresh "acts" in
  let Em := fresh "Em" in let Bl := fresh "Bl" in
  apply runBody_Next in E as (o & acts & Em & Bl & ->).

Ltac inPlace_cases E :=
  let Al := fresh "Al" in let c1 := fresh "c1" in let E1 := fresh "E1" in
  apply inPlace_Next in E as (Al & c1 & E1 & ->); body_cases E1.

Ltac exec_cases l c E :=
  let who := fresh "who" in let op := fresh "op" in let t := fresh "t" in
  let Cb := fresh "Cb" in let Pr := fresh "Pr" in let Lk := fresh "Lk" in
  let f := fresh "f" in let m := fresh "m" in let p := fresh "p" in
  let Al := fresh "Al" in let G := fresh "G" in let Q := fresh "Q" in
  let q := fresh "q" in let h := fresh "h" in let Ct := fresh "Ct" in
  let Pe := fresh "Pe" in let Cn := fresh "Cn" in
  destruct l as [who op|t| |? ?|? ? ?]; cbn [exec] in E;
  [ unfold begin in E; destruct (callable c who) eqn:Cb; [|discriminate];
    destruct op as [? ? ? ? ?|? ?| |];
    [ destruct (initialize_prologue _ _ _ _ _ _) eqn:Pr;
      [ injection E as <-
      | destruct who; cbn [enter] in E; [discriminate|injection E as <-] ]
    | destruct who; cbn [onUIThread enter] in E;
      [ inPlace_cases E | injection E as <- ]
    | destruct who; cbn [onUIThread enter] in E;
      [ inPlace_cases E | injection E as <- ]
    | inPlace_cases E ]
  | destruct (threads c !! t) as [[|f|]|] eqn:Lk; try discriminate;
    destruct f as [m p]; unfold advance in E; cbn [pc call] in E;
    destruct p;
    try (match type of E with
         | context [readsResult ?x] => destruct x; cbn [readsResult] in E
         end);
    destruct (alive c) eqn:Al; try discriminate; injection E as <-
  | unfold deliver in E; destruct (onGui c) eqn:G; [|discriminate];
    destruct (queue c) as [|[m|] q] eqn:Q; try discriminate;
    [ body_cases E | injection E as <- ]
  | unfold emitSignal in E; cbn [emitter emitted] in E;
    destruct (content (this c)) as [h|] eqn:Ct; [|discriminate];
    destruct (existsb _ (pending h)) eqn:Pe; [|discriminate];
    destruct (existsb _ (connections h)) eqn:Cn;
    [ body_cases E | injection E as <- ]
  | unfold emitSignal in E; cbn [emitter emitted] in E;
    destruct (leftBehind c !! _) as [h|] eqn:Ct; [|discriminate];
    destruct (existsb _ (pending h)) eqn:Pe; [|discriminate];
    destruct (existsb _ (connections h)) eqn:Cn;
    [ body_cases E | injection E as <- ] ].



Lemma disposedClean_step l c c' :
  disposedClean c -> exec l c = Next c' -> disposedClean c'.
Proof.
  intros P E. unfold disposedClean in *. exec_cases l c E;
    try (destruct who; cbn in *; congruence);
    try (cbn in *; congruence);
    try (cbn; intros A; destruct (P A) as (? & ? & ?); congruence);
    try (cbn; auto);
    try (destruct who; cbn; auto).
  all: intros A; destruct (P A) as (_ & _ & L0); rewrite L0 in Ct; discriminate.
Qed.





(** *** Workers and the pointers of the object *)

Lemma wake_cases ts a :
  wake ts a = ts \/
  exists w m, ts !! w = Some (Running (mkFrame m PcWaiting)) /\
              wake ts a = <[w := Running (mkFrame m PcWoken)]> ts.
Proof.
  destruct a; cbn; auto.
  destruct (ts !! w) as [[|[m p]|]|] eqn:E; auto.
  destruct p; cbn; auto. right. eauto.
Qed.

Lemma callable_idle c t :
  callable c (Worker t) = true ->
  exists s, threads c !! t = Some s /\ isRunning s = false.
Proof.
  cbn. destruct (threads c !! t) as [[| |]|]; try discriminate; eauto.
Qed.

Lemma ptl_none rng ts : pointsToLive rng ts None.
Proof. intros t E. discriminate. Qed.

Lemma ptl_set rng ts t m p :
  t < length ts -> rng p = true ->
  pointsToLive rng (<[t := Running (mkFrame m p)]> ts) (Some t).
Proof.
  intros L R u [= <-]. eexists. rewrite list_lookup_insert_eq by exact L. eauto.
Qed.

Lemma ptl_insert_running rng ts ptr t m p :
  pointsToLive rng ts ptr -> t < length ts -> rng p = true ->
  pointsToLive rng (<[t := Running (mkFrame m p)]> ts) ptr.
Proof.
  intros P L R u E. destruct (Nat.eq_dec t u) as [<-|N].
  - eexists. rewrite list_lookup_insert_eq by exact L. eauto.
  - rewrite list_lookup_insert_ne by exact N. auto.
Qed.

Lemma ptl_insert_leaving rng ts ptr t m p s :
  pointsToLive rng ts ptr ->
  ts !! t = Some (Running (mkFrame m p)) -> rng p = false ->
  pointsToLive rng (<[t := s]> ts) ptr.
Proof.
  intros P Lk R u E. destruct (P u E) as (f & Lf & Rf).
  destruct (Nat.eq_dec t u) as [Eq|N].
  - subst u. rewrite Lk in Lf. injection Lf as <-. cbn in Rf. congruence.
  - rewrite list_lookup_insert_ne by exact N. eauto.
Qed.

Lemma ptl_insert_other rng ts ptr t s0 s :
  pointsToLive rng ts ptr ->
  ts !! t = Some s0 -> isRunning s0 = false ->
  pointsToLive rng (<[t := s]> ts) ptr.
Proof.
  intros P Lk R u E. destruct (P u E) as (f & Lf & Rf).
  destruct (Nat.eq_dec t u) as [Eq|N].
  - subst u. rewrite Lk in Lf. injection Lf as ->. discriminate.
  - rewrite list_lookup_insert_ne by exact N. eauto.
Qed.

Lemma ptl_wake rng ts ptr acts :
  rng PcWoken = true ->
  pointsToLive rng ts ptr -> pointsToLive rng (fold_left wake acts ts) ptr.
Proof.
  intros R. revert ts. induction acts as [|a acts IH]; intros ts P; [exact P|].
  cbn [fold_left]. apply IH.
  destruct (wake_cases ts a) as [->|(w & m & Lk & ->)]; [exact P|].
  apply ptl_insert_running; auto. eapply lookup_lt_Some; eauto.
Qed.

Lemma wake_idle ts acts t s :
  ts !! t = Some s -> isRunning s = false ->
  fold_left wake acts ts !! t = Some s.
Proof.
  revert ts. induction acts as [|a acts IH]; intros ts Lk R; [exact Lk|].
  cbn [fold_left]. apply IH; [|exact R].
  destruct (wake_cases ts a) as [->|(w & m & Lw & ->)]; [exact Lk|].
  rewrite list_lookup_insert_ne; [exact Lk|]. intros Eq. subst w.
  rewrite Lk in Lw. injection Lw as ->. discriminate.
Qed.

Ltac ptl :=
  first [ apply ptl_none
        | apply ptl_set; [eapply lookup_lt_Some; eassumption | reflexivity]
        | eapply ptl_insert_running;
            [eassumption | eapply lookup_lt_Some; eassumption | reflexivity]
        | eapply ptl_insert_leaving; [eassumption | eassumption | reflexivity]
        | eapply ptl_insert_other; [eassumption | eassumption | assumption]
        | apply ptl_wake; [reflexivity | assumption]
        | eapply ptl_insert_other;
            [ apply ptl_wake; [reflexivity | eassumption]
            | eapply wake_idle; eassumption
            | assumption ]
        | assumption ].

Ltac expose :=
  cbn [this threads mutex waitCondition returns setThread logged with_threads
       with_this with_queue with_onGui with_leftBehind set_mutex set_waitCondition set_content
       destructor].

(** The pointers of the object never dangle. *)
Lemma pointersLive_step l c c' :
  pointersLive c -> exec l c = Next c' -> pointersLive c'.
Proof.
  intros [Pm Pw] E. unfold pointersLive.
  exec_cases l c E;
    try (first [ apply render_inPlace_tame in Em
               | apply reload_inPlace_tame in Em
               | apply destroy_tame in Em
               | apply invoke_tame in Em
               | apply initializeComplete_tame in Em ];
         destruct Em as (Km & Kw & _ & _); cbn in Km, Kw);
    try (destruct (callable_idle _ _ Cb) as (s0 & Lk0 & R0));
    try (destruct m);
    expose; rewrite ?Km, ?Kw;
    try (split; ptl).
  all: destruct who; expose; rewrite ?Km, ?Kw;
    try (destruct (callable_idle _ _ Cb) as (s0 & Lk0 & R0)); split; ptl.
Qed.

Lemma pointersLive_reachable n ls c :
  run ls (init n) = Next c -> pointersLive c.
Proof.
  apply run_invariant.
  - intros l c1 c2. apply pointersLive_step.
  - split; apply ptl_none.
Qed.

(** *** Counting the workers inside a call *)







Lemma run_sync_run ls : forall c c', run_sync ls c = Next c' -> run ls c = Next c'.
Proof.
  induction ls as [|l ls IH]; intros c c' R; [exact R|].
  cbn [run_sync run] in *. unfold exec_sync in R.
  destruct (isBegin l && negb (quiescent c)); [discriminate|].
  destruct (exec l c); auto.
Qed.


(** *** The hand-off of a marshaled render *)

Lemma quiescent_idle c u s :
  quiescent c = true -> threads c !! u = Some s -> isRunning s = false.
Proof.
  unfold quiescent. revert u. induction (threads c) as [|x ts IH]; intros u Q Lk.
  - discriminate.
  - cbn [forallb] in Q. apply andb_true_iff in Q as [Qx Qts].
    destruct u as [|u]; cbn in Lk.
    + injection Lk as <-. now apply negb_true_iff in Qx.
    + eapply IH; eauto.
Qed.

Lemma quiescent_running c t f :
  quiescent c = true -> threads c !! t = Some (Running f) -> False.
Proof.
  intros Q Lk. pose proof (quiescent_idle _ _ Q Lk) as R. discriminate.
Qed.





Lemma calm_lookup hs i (h : Content) : calm hs -> hs !! i = Some h -> pending h = [].
Proof.
  unfold calm. revert i. induction hs as [|x hs IH]; intros i C Lk; [discriminate|].
  apply Forall_cons in C as [Cx C]. destruct i as [|i]; cbn in Lk.
  - now injection Lk as <-.
  - eapply IH; eauto.
Qed.









(** *** Further invariants of all executions *)

(** X1.  In every execution, synchronized or not, a non-null [mutex] or
    [waitCondition] of the object is the address of the pair of a worker
    that is inside the marshaling branch, between the statement that
    installed it and the statement that clears it; and both are null
    whenever no worker is inside a call. *)
Theorem pointers_never_dangle n ls c :
  run ls (init n) = Next c ->
  pointersLive c /\
  (quiescent c = true ->
   mutex (this c) = None /\ waitCondition (this c) = None).
Proof.
  intros R. pose proof (pointersLive_reachable _ _ R) as [Pm Pw].
  split; [split; assumption|]. intros Q. split.
  - destruct (mutex (this c)) as [t|] eqn:E; [|reflexivity].
    destruct (Pm t eq_refl) as (f & Lk & _).
    destruct (quiescent_running _ _ Q Lk).
  - destruct (waitCondition (this c)) as [t|] eqn:E; [|reflexivity].
    destruct (Pw t eq_refl) as (f & Lk & _).
    destruct (quiescent_running _ _ Q Lk).
Qed.

(** *** Who calls the content *)

Lemma contentOnGui_gui tr acts :
  contentOnGui tr -> contentOnGui (tr ++ map (pair UIThread) acts).
Proof.
  intros H. apply Forall_app. split; [exact H|].
  induction acts as [|a acts IH]; constructor; auto.
Qed.

Lemma contentOnGui_other tr who acts :
  forallb (fun a => negb (touchesContent a)) acts = true ->
  contentOnGui tr -> contentOnGui (tr ++ map (pair who) acts).
Proof.
  intros N H. apply Forall_app. split; [exact H|].
  induction acts as [|a acts IH]; [constructor|].
  cbn [forallb] in N. apply andb_true_iff in N as [Na N].
  constructor; [|auto]. cbn. intros T. rewrite T in Na. discriminate.
Qed.

Lemma contentOnGui_step l c c' :
  contentOnGui (trace c) -> exec l c = Next c' -> contentOnGui (trace c').
Proof.
  intros P E.
  exec_cases l c E;
    try (destruct who);
    try (cbn in Em; injection Em as <- <-);
    cbn [trace returns setThread logged with_threads with_this with_queue
         with_onGui with_leftBehind destructor];
    try assumption;
    try (apply contentOnGui_gui; assumption);
    try (apply contentOnGui_other; [reflexivity|assumption]).
  destruct (content (this c)).
  - apply (contentOnGui_gui [ADeleteContent]). assumption.
  - now rewrite app_nil_r.
Qed.

(** X2.  In every execution of [initialize], [render], [reload] and
    [destroy], whichever threads call them, each call on the content --
    its construction, [setTransparent], the connection of its signal,
    [loadContent], [setContentSize], [renderContent], [reload] and its
    deletion -- is made by the GUI thread. *)
Theorem content_called_on_gui_thread n ls c :
  run ls (init n) = Next c -> contentOnGui (trace c).
Proof.
  apply (run_invariant (fun c => contentOnGui (trace c))).
  - intros l c1 c2. apply contentOnGui_step.
  - constructor.
Qed.

(** *** How often the content is deleted *)

Lemma deletions_app tr1 tr2 :
  deletions (tr1 ++ tr2) = deletions tr1 + deletions tr2.
Proof.
  induction tr1 as [|[who a] tr1 IH]; [reflexivity|].
  cbn [app deletions]. destruct a; cbn; auto.
Qed.

Lemma deletions_none who acts :
  forallb (fun a => negb (isDelete a)) acts = true ->
  deletions (map (pair who) acts) = 0.
Proof.
  induction acts as [|a acts IH]; [reflexivity|].
  cbn [forallb]. intros N. apply andb_true_iff in N as [Na N].
  destruct a; cbn in Na |- *; auto. discriminate.
Qed.

Lemma initializeInvokable_deletesNothing url size parameters isPlain isTransparent :
  deletesNothing (initializeInvokable url size parameters isPlain isTransparent).
Proof.
  intros o o' acts. unfold initializeInvokable.
  destruct (QString.endsWith (path url) ".html" || QString.endsWith (path url) ".htm"
            || negb (isLocalFile url));
    [|destruct (QString.endsWith (path url) ".qml")];
    destruct o as [[h|] m w ir rr], isPlain, isTransparent; cbn;
    intros [= <- <-]; reflexivity.
Qed.

Lemma invoke_deletesNothing m : deletesNothing (invoke m).
Proof.
  destruct m; cbn [invoke].
  - apply initializeInvokable_deletesNothing.
  - intros [[h|] [m|] [w|] ir rr] o' acts; cbn; intros [= <- <-]; reflexivity.
  - intros [[h|] m w ir rr] o' acts; cbn; intros [= <- <-]; reflexivity.
Qed.

Lemma initializeComplete_deletesNothing r : deletesNothing (initializeComplete r).
Proof.
  intros [h m [w|] ir rr] o' acts; cbn; intros [= <- <-]; reflexivity.
Qed.

Lemma render_inPlace_deletesNothing time renderImage :
  deletesNothing (render_inPlace time renderImage).
Proof.
  intros [[h|] [m|] [w|] ir rr] o' acts; cbn; intros [= <- <-]; reflexivity.
Qed.

Lemma reload_inPlace_deletesNothing : deletesNothing reload_inPlace.
Proof.
  intros [[h|] m w ir rr] o' acts; cbn; intros [= <- <-]; reflexivity.
Qed.

Lemma destroy_deletesNothing : deletesNothing destroy.
Proof. intros o o' acts. cbn. intros [= <- <-]. reflexivity. Qed.

Lemma deletedOnce_step l c c' :
  deletedOnce c -> exec l c = Next c' -> deletedOnce c'.
Proof.
  intros [D P] E. split; [eapply disposedClean_step; eauto|].
  exec_cases l c E;
    try (first [ apply render_inPlace_deletesNothing in Em
               | apply reload_inPlace_deletesNothing in Em
               | apply destroy_deletesNothing in Em
               | apply invoke_deletesNothing in Em
               | apply initializeComplete_deletesNothing in Em ]);
    try (destruct who);
    cbn [trace alive returns setThread logged with_threads with_this with_queue
         with_onGui with_leftBehind destructor];
    rewrite ?deletions_app, ?deletions_none by (assumption || reflexivity);
    rewrite ?Nat.add_0_r; try assumption.
  all: destruct (alive c) eqn:A;
    [ destruct (content (this c)); cbn; lia
    | destruct (D A) as [Q' _]; congruence ].
Qed.

(** X3.  In every execution the content is deleted at most once, however
    often [destroy] is called, and it has not been deleted while the
    object exists. *)
Theorem content_deleted_at_most_once n ls c :
  run ls (init n) = Next c ->
  deletions (trace c) <= 1 /\
  (alive c = true -> deletions (trace c) = 0).
Proof.
  intros R.
  assert (H : deletedOnce c).
  { revert R. apply run_invariant.
    - intros l c1 c2. apply deletedOnce_step.
    - split; [intros A; discriminate|]. cbn. lia. }
  destruct H as [_ H]. destruct (alive c); split; try lia; try discriminate.
Qed.

(** *** Where [renderResult] is written *)

Lemma keepsRenderResult_initializeInvokable url size parameters isPlain isTransparent :
  keepsRenderResult (initializeInvokable url size parameters isPlain isTransparent).
Proof.
  intros o a o' acts E. unfold initializeInvokable in E.
  destruct (QString.endsWith (path url) ".html" || QString.endsWith (path url) ".htm"
            || negb (isLocalFile url));
    [|destruct (QString.endsWith (path url) ".qml")];
    destruct o as [[h|] m w ir rr], isPlain, isTransparent; cbn in E;
    injection E as <- <- <-; reflexivity.
Qed.

Lemma keepsRenderResult_initializeComplete r : keepsRenderResult (initializeComplete r).
Proof.
  intros o a o' acts. unfold initializeComplete, bind, gets. cbn.
  destruct (waitCondition o); cbn; [intros [= <- <- <-]; reflexivity | discriminate].
Qed.

Lemma keepsRenderResult_reloadInvokable : keepsRenderResult reloadInvokable.
Proof.
  intros o a o' acts. unfold reloadInvokable, content_reload, updContent,
    withContent, bind, gets. cbn.
  destruct (content o); cbn; [intros [= <- <- <-]; reflexivity | discriminate].
Qed.

Lemma keepsRenderResult_reload_inPlace : keepsRenderResult reload_inPlace.
Proof.
  intros [[h|] m w ir rr] a o' acts; cbn; [intros [= <- <- <-]; reflexivity|discriminate].
Qed.

Lemma keepsRenderResult_destroy : keepsRenderResult destroy.
Proof. intros o a o' acts. cbn. intros [= <- <- <-]. reflexivity. Qed.

Lemma renderInvokable_stores time renderImage o o' acts :
  renderInvokable time renderImage o = Done tt o' acts ->
  renderResult o' <> renderResult o ->
  exists t w h,
    mutex o = Some t /\ waitCondition o = Some w /\ content o = Some h /\
    renderResult o' = fst (rendered time renderImage h).
Proof.
  destruct o as [[h|] [m|] [w|] ir rr]; cbn; intros [= <- <-] N;
    try (now contradiction N); try discriminate.
  exists m, w, h. repeat split.
Qed.

Lemma render_inPlace_stores time renderImage o o' acts :
  render_inPlace time renderImage o = Done tt o' acts ->
  renderResult o' <> renderResult o ->
  exists t w h,
    mutex o = Some t /\ waitCondition o = Some w /\ content o = Some h /\
    renderResult o' = fst (rendered time renderImage h).
Proof.
  destruct o as [[h|] [m|] [w|] ir rr]; cbn; intros [= <- <-] N;
    try (now contradiction N); try discriminate.
  exists m, w, h. repeat split.
Qed.

(** A step changes [renderResult] only by running [renderInvokable] while
    both pointers of the object are set -- the delivery of a marshaled
    [render], or a [render] on the GUI thread -- and the new value is the
    answer of [renderContent] to that run. *)
Lemma renderResult_step l c c' :
  exec l c = Next c' ->
  renderResult (this c') <> renderResult (this c) ->
  exists t w h time renderImage,
    mutex (this c) = Some t /\ waitCondition (this c) = Some w /\
    content (this c) = Some h /\
    renderResult (this c') = fst (rendered time renderImage h) /\
    (l = LBegin UIThread (Render time renderImage) \/
     (l = LLoop /\
      exists q, queue c = MetaCallEvent (renderInvokableCall time renderImage) :: q)).
Proof.
  intros E N. exec_cases l c E;
    try (exfalso; apply N; reflexivity);
    try (destruct who; exfalso; apply N; reflexivity);
    try (exfalso; apply N; cbn [this setThread];
         first [ eapply keepsRenderResult_reload_inPlace; exact Em
               | eapply keepsRenderResult_destroy; exact Em ]).
  - cbn [this setThread] in N |- *.
    destruct (@render_inPlace_stores _ _ _ _ _ Em N) as (t' & w & h & Mx & W & C & S).
    exists t', w, h, time, renderImage. repeat split; auto.
  - exfalso. apply N. destruct who; eapply keepsRenderResult_destroy; exact Em.
  - cbn [this with_queue] in N, Em |- *. destruct m; cbn [invoke] in Em.
    + exfalso. apply N. eapply keepsRenderResult_initializeInvokable; exact Em.
    + destruct (@renderInvokable_stores _ _ _ _ _ Em N) as (t' & w & h & Mx & W & C & S).
      exists t', w, h, time, renderImage. repeat split; auto. right. eauto.
    + exfalso. apply N. eapply keepsRenderResult_reloadInvokable; exact Em.
  - exfalso. apply N. cbn [this with_this] in Em |- *.
    erewrite keepsRenderResult_initializeComplete by exact Em. reflexivity.
  - exfalso. apply N. cbn [this with_leftBehind] in Em |- *.
    eapply keepsRenderResult_initializeComplete; exact Em.
Qed.

(** ... and such a run does store it. *)
Lemma renderResult_exec l c c' :
  exec l c = Next c' ->
  renderResult (this c')
  = match storedBy l c with
    | Some b => b
    | None => renderResult (this c)
    end.
Proof.
  intros E. destruct (storedBy l c) as [b|] eqn:S.
  - unfold storedBy in S.
    destruct (mutex (this c)) as [t|] eqn:Mx; [|discriminate].
    destruct (waitCondition (this c)) as [w|] eqn:W; [|discriminate].
    destruct (content (this c)) as [h|] eqn:C; [|discriminate].
    destruct l as [[|u] [? ? ? ? ?|time renderImage| |]|u| |? ?|? ? ?];
      try discriminate.
    + injection S as <-. cbn [exec begin callable onUIThread] in E.
      apply inPlace_Next in E as (Al & c1 & E1 & ->).
      apply runBody_Next in E1 as (o & acts & Em & Bl & ->).
      cbn [this setThread].
      destruct (this c) as [ct m w0 ir rr]. cbn in Mx, W, C. subst.
      cbn in Em. injection Em as <- <-. reflexivity.
    + destruct (queue c) as [|[[? ? ? ? ?|time renderImage|]|] q] eqn:Q;
        try discriminate.
      injection S as <-. cbn [exec] in E. unfold deliver in E. rewrite Q in E.
      destruct (onGui c); [|discriminate].
      apply runBody_Next in E as (o & acts & Em & Bl & ->).
      cbn [this with_queue invoke] in Em |- *.
      destruct (this c) as [ct m w0 ir rr]. cbn in Mx, W, C. subst.
      cbn in Em. injection Em as <- <-. reflexivity.
  - destruct (Bool.bool_dec (renderResult (this c')) (renderResult (this c)))
      as [Eq|N]; [exact Eq|].
    destruct (renderResult_step _ _ E N)
      as (t & w & h & time & renderImage & Mx & W & C & _ & [->|[-> [q Q]]]);
      unfold storedBy in S; rewrite Mx, W, C in S; [discriminate|].
    rewrite Q in S. discriminate.
Qed.

Lemma renderResult_run ls : forall c c',
  run ls c = Next c' ->
  renderResult (this c') = lastStored ls c (renderResult (this c)).
Proof.
  induction ls as [|l ls IH]; intros c c' R.
  - now injection R as <-.
  - cbn [run lastStored] in *. destruct (exec l c) as [c1| |] eqn:E; try discriminate.
    rewrite (IH _ _ R), (renderResult_exec _ _ E). reflexivity.
Qed.

(** *** Calls that outlive the object *)

Lemma wake_inCall acts : forall (ts : list ThreadState) t,
  inCall t ts -> inCall t (fold_left wake acts ts).
Proof.
  induction acts as [|a acts IH]; intros ts t R; [exact R|].
  cbn [fold_left]. apply IH.
  destruct (wake_cases ts a) as [->|(w & m & Lk & ->)]; [exact R|].
  destruct R as (f & Lf & Af). destruct (Nat.eq_dec w t) as [Eq|N].
  - subst w. exists (mkFrame m PcWoken). split; [|reflexivity].
    apply list_lookup_insert_eq. eapply lookup_lt_Some; eauto.
  - exists f. now rewrite list_lookup_insert_ne.
Qed.

Lemma inCall_insert (ts : list ThreadState) t u s :
  inCall t ts ->
  (u = t -> exists f, s = Running f /\ accessAhead f = true) ->
  inCall t (<[u := s]> ts).
Proof.
  intros (f & Lf & Af) R. destruct (Nat.eq_dec u t) as [Eq|N].
  - subst u. destruct (R eq_refl) as (f' & -> & Af'). exists f'.
    rewrite list_lookup_insert_eq by (eapply lookup_lt_Some; eauto). auto.
  - exists f. now rewrite list_lookup_insert_ne.
Qed.

Lemma callable_running c t u f :
  threads c !! t = Some (Running f) -> callable c (Worker u) = true -> u <> t.
Proof. intros Lf Cb ->. cbn in Cb. rewrite Lf in Cb. discriminate. Qed.

Lemma orphaned_step t l c c' :
  orphaned t c -> exec l c = Next c' -> orphaned t c'.
Proof.
  intros [A R] E. unfold orphaned.
  exec_cases l c E; try congruence;
    try (destruct who);
    cbn [alive threads returns setThread logged with_threads with_this with_queue
         with_onGui with_leftBehind destructor];
    (split; [first [assumption | reflexivity]|]);
    try assumption;
    try (apply wake_inCall; assumption);
    try (apply inCall_insert; [assumption|]; intros Eq; subst;
         first [ eexists; split; [reflexivity|try destruct m; reflexivity]
               | destruct R as (f0 & Lf0 & Af0); rewrite Lf0 in Lk;
                 injection Lk as ->; discriminate
               | destruct R as (f0 & Lf0 & Af0);
                 exfalso; eapply callable_running; eauto ]).
Qed.

(** X4.  Once the object has been deleted, a worker that is inside
    [initialize] or [render], or inside [reload] before its last statement,
    does not return from it: whatever happens next, the call stays in
    progress or the execution reaches an access to the deleted object.
    The exception is a [reload] that has cleared both pointers: nothing is
    left for it to access, and it returns. *)
Theorem call_on_deleted_object_never_returns t c :
  (forall ls c',
     orphaned t c -> run ls c = Next c' ->
     exists f, threads c' !! t = Some (Running f) /\ accessAhead f = true) /\
  (alive c = false ->
   threads c !! t = Some (Running (mkFrame reloadInvokableCall PcReturn)) ->
   exists c',
     exec (LThread t) c = Next c' /\
     threads c' !! t = Some (Returned OpReload RVoid)).
Proof.
  split.
  - intros ls c' O R.
    assert (H : orphaned t c').
    { revert O R. apply run_invariant. intros l c1 c2. apply orphaned_step. }
    apply H.
  - intros A Lk. cbn [exec]. rewrite Lk. unfold advance.
    cbn [pc call readsResult opOf resultOf]. eexists. split; [reflexivity|].
    cbn. apply list_lookup_insert_eq. eapply lookup_lt_Some; eauto.
Qed.

(** *** Where a content can exist *)

Lemma initializeComplete_keepsAbsent r : keepsAbsent (initializeComplete r).
Proof.
  intros [h m [w|] ir rr] o' acts; cbn; intros [= <- <-]; auto.
Qed.

Lemma render_inPlace_keepsAbsent time renderImage :
  keepsAbsent (render_inPlace time renderImage).
Proof. intros [[h|] m w ir rr] o' acts; cbn; [intros _|]; discriminate. Qed.

Lemma reload_inPlace_keepsAbsent : keepsAbsent reload_inPlace.
Proof. intros [[h|] m w ir rr] o' acts; cbn; [intros _|]; discriminate. Qed.

Lemma destroy_keepsAbsent : keepsAbsent destroy.
Proof. intros o o' acts. cbn. intros [= <- <-]. auto. Qed.

Lemma contentAfterMove_step l c c' :
  contentAfterMove c -> exec l c = Next c' -> contentAfterMove c'.
Proof.
  unfold contentAfterMove. intros J E.
  exec_cases l c E;
    try (right; reflexivity);
    try (right; assumption);
    try (first [ apply render_inPlace_keepsAbsent in Em
               | apply reload_inPlace_keepsAbsent in Em
               | apply destroy_keepsAbsent in Em
               | apply initializeComplete_keepsAbsent in Em ]);
    try (destruct who);
    cbn [this onGui content returns setThread logged with_threads with_this with_queue
         with_onGui with_leftBehind destructor set_mutex set_waitCondition set_content];
    try (destruct J as [J|J]; [left; first [congruence | auto]|right; exact J]);
    try (left; reflexivity).
Qed.

(** X14.  In every execution, a content exists only once the object has
    been moved to the GUI thread: nothing constructs a content before an
    [initialize] has passed its [moveToThread]. *)
Theorem content_only_after_move n ls c :
  run ls (init n) = Next c -> content (this c) <> None -> onGui c = true.
Proof.
  intros R N.
  assert (H : contentAfterMove c).
  { revert R. apply run_invariant.
    - intros l c1 c2. apply contentAfterMove_step.
    - left. reflexivity. }
  destruct H as [H|H]; [contradiction|exact H].
Qed.

End StepFacts.

(** ** Runs *)

Section RunFacts.

Context {QU : QtUrl} {CI : ContentImpl}.

Lemma run_cons l ls c :
  run (l :: ls) c = match exec l c with Next c' => run ls c' | r => r end.
Proof. reflexivity. Qed.

Lemma run_sync_app ls1 ls2 c :
  run_sync (ls1 ++ ls2) c
  = match run_sync ls1 c with Next c' => run_sync ls2 c' | r => r end.
Proof.
  revert c. induction ls1 as [|l ls1 IH]; intros c; [reflexivity|].
  cbn [app run_sync]. destruct (exec_sync l c); auto.
Qed.

Lemma callable_lt c t : callable c (Worker t) = true -> t < length (threads c).
Proof.
  cbn. destruct (threads c !! t) eqn:E; [|discriminate].
  intros _. eapply lookup_lt_Some; eauto.
Qed.

Lemma callable_after c c' t op v who :
  threads c' = <[t := Returned op v]> (threads c) ->
  callable c who = true -> callable c' who = true.
Proof.
  intros E. destruct who as [|u]; [reflexivity|]. cbn. rewrite E.
  destruct (Nat.eq_dec t u) as [->|N].
  - destruct (threads c !! u) eqn:L; [|discriminate].
    rewrite list_lookup_insert_eq by (eapply lookup_lt_Some; eauto). reflexivity.
  - rewrite list_lookup_insert_ne by exact N. auto.
Qed.

Lemma quiescent_after c c' t op v :
  threads c' = <[t := Returned op v]> (threads c) ->
  quiescent c = true -> quiescent c' = true.
Proof.
  unfold quiescent. intros ->. revert t.
  induction (threads c) as [|x ts IH]; intros t Q; [exact Q|].
  cbn [forallb] in Q. apply andb_true_iff in Q as [Qx Qts].
  destruct t as [|t].
  - cbn. exact Qts.
  - change (<[S t := Returned op v]> (x :: ts))
      with (x :: <[t := Returned op v]> ts).
    cbn [forallb]. now rewrite Qx, IH.
Qed.

Lemma exec_thread o al g q ts tr lb t f :
  t < length ts ->
  exec (LThread t) (mkConfig o al g q (<[t := Running f]> ts) tr lb)
  = advance t f (mkConfig o al g q (<[t := Running f]> ts) tr lb).
Proof. intros L. cbn. rewrite list_lookup_insert_eq by exact L. reflexivity. Qed.

Lemma held_insert ts t f :
  t < length ts -> held (<[t := Running f]> ts) t = holdsMutex (pc f).
Proof. intros L. unfold held. now rewrite list_lookup_insert_eq. Qed.

Lemma renderInvokable_marshaled h m w ir rr time renderImage :
  renderInvokable time renderImage (mkEffectsImpl (Some h) (Some m) (Some w) ir rr)
  = Done tt
      (mkEffectsImpl (Some (snd (rendered time renderImage h))) (Some m) (Some w) ir
         (fst (rendered time renderImage h)))
      [ASetContentSize (mkQSize (imageWidth renderImage) (imageHeight renderImage));
       ARenderContent time renderImage; ALock (Some m); AWakeAll w].
Proof. reflexivity. Qed.

Lemma render_inPlace_resting h ir rr time renderImage :
  render_inPlace time renderImage (mkEffectsImpl (Some h) None None ir rr)
  = Done tt
      (mkEffectsImpl (Some (snd (rendered time renderImage h))) None None ir rr)
      [ASetContentSize (mkQSize (imageWidth renderImage) (imageHeight renderImage));
       ARenderContent time renderImage; AReturn OpRender (RBool rr)].
Proof. reflexivity. Qed.

Ltac reduce :=
  unfold advance, returns, setThread, logged, with_threads, with_this, with_queue,
    with_onGui, with_leftBehind, set_mutex, set_waitCondition, set_content,
    set_renderResult, set_initializeResult;
  cbn [pc call this alive onGui queue threads trace leftBehind
       content mutex waitCondition initializeResult renderResult
       opOf resultOf readsResult app map];
  rewrite ?list_insert_insert_eq, ?app_nil_r.

Ltac thread_step L :=
  rewrite run_cons, exec_thread by exact L; reduce.

(** A marshaled [render] on a resting object, left alone, runs through
    the hand-off and returns what [renderContent] answered. *)
Lemma marshaled_render_runs c h t time renderImage :
  resting c h -> callable c (Worker t) = true ->
  exists c' suffix,
    run (marshaledRender t time renderImage) c = Next c' /\
    resting c' (snd (rendered time renderImage h)) /\
    renderResult (this c') = fst (rendered time renderImage h) /\
    threads c' = <[t := Returned OpRender (RBool (fst (rendered time renderImage h)))]>
                   (threads c) /\
    trace c' = (trace c ++ suffix)%list /\
    renderReturns suffix = [(Worker t, fst (rendered time renderImage h))].
Proof.
  intros (A & G & Q & C & Mx & W & Qs) Cb.
  pose proof (callable_lt _ _ Cb) as L.
  destruct c as [[ct m w ir rr] al g q ts tr lb]; cbn in A, G, Q, C, Mx, W, L; subst.
  unfold marshaledRender, steps. cbn [replicate app].
  rewrite run_cons. cbn [exec]. unfold begin. rewrite Cb.
  cbn [onUIThread enter]. reduce.
  do 5 thread_step L.
  rewrite run_cons. cbn [exec]. unfold deliver. reduce.
  unfold runBody. reduce. cbn [invoke].
  rewrite renderInvokable_marshaled.
  cbn [existsb blockedOn held orb fold_left wake flat_map posted left app].
  rewrite held_insert, !list_lookup_insert_eq by exact L. reduce.
  cbn [holdsMutex orb]. reduce.
  do 5 thread_step L.
  eexists _, _. split; [reflexivity|]. cbn [this threads trace renderResult].
  rewrite <- app_assoc. repeat split.
  eapply quiescent_after; [|exact Qs]. reflexivity.
Qed.

(** [render] on the GUI thread, on a resting object. *)
Lemma inPlace_render_runs c h time renderImage :
  resting c h ->
  exists c' suffix,
    exec (LBegin UIThread (Render time renderImage)) c = Next c' /\
    resting c' (snd (rendered time renderImage h)) /\
    renderResult (this c') = renderResult (this c) /\
    threads c' = threads c /\
    trace c' = (trace c ++ suffix)%list /\
    renderReturns suffix = [(UIThread, renderResult (this c))].
Proof.
  intros (A & G & Q & C & Mx & W & Qs).
  destruct c as [[ct m w ir rr] al g q ts tr lb]; cbn in A, G, Q, C, Mx, W; subst.
  cbn [exec begin callable onUIThread]. unfold inPlace, runBody. reduce.
  rewrite render_inPlace_resting.
  cbn [existsb blockedOn orb fold_left wake flat_map posted left app]. reduce.
  eexists _, _. split; [reflexivity|]. repeat split. exact Qs.
Qed.

Lemma run_sync_marshaledRender t time renderImage c :
  quiescent c = true ->
  run_sync (marshaledRender t time renderImage) c
  = run (marshaledRender t time renderImage) c.
Proof.
  intros Q. unfold marshaledRender. cbn [run_sync run]. unfold exec_sync.
  rewrite Q. cbn [isBegin negb andb].
  destruct (exec (LBegin (Worker t) (Render time renderImage)) c) as [c1| |];
    reflexivity.
Qed.

Lemma renderReturns_app tr1 tr2 :
  renderReturns (tr1 ++ tr2) = (renderReturns tr1 ++ renderReturns tr2)%list.
Proof.
  induction tr1 as [|[who a] tr1 IH]; [reflexivity|].
  cbn [app renderReturns]. destruct a; try exact IH.
  destruct op; try exact IH. destruct v; try exact IH.
  cbn [app]. now rewrite IH.
Qed.

(** A history of renders made one after the other on a resting object
    runs to its end, every call entered on a quiescent object; each worker
    is returned the answer to its own call, each render on the GUI thread
    the [renderResult] it found. *)
Lemma render_history calls :
  forall c0 h0,
    resting c0 h0 ->
    Forall (fun call : Thread * TimePoint * Image => callable c0 (fst (fst call)) = true)
      calls ->
    exists c h suffix,
      run_sync (schedule calls) c0 = Next c /\ resting c h /\
      trace c = (trace c0 ++ suffix)%list /\
      renderReturns suffix = expected calls h0 (renderResult (this c0)).
Proof.
  induction calls as [|[[who time] renderImage] calls IH]; intros c0 h0 R F.
  - exists c0, h0, []. cbn. rewrite app_nil_r. auto.
  - apply Forall_cons in F as [Cb F]. cbn [fst] in Cb.
    assert (Q : quiescent c0 = true) by apply R.
    unfold schedule. cbn [flat_map]. rewrite run_sync_app.
    destruct who as [|t]; cbn [renderSchedule expected].
    + destruct (@inPlace_render_runs c0 h0 time renderImage R)
        as (c1 & sfx1 & E1 & R1 & RR1 & T1 & Tr1 & Ret1).
      cbn [run_sync]. unfold exec_sync. rewrite Q. cbn [isBegin negb andb].
      rewrite E1.
      destruct (IH c1 _ R1) as (c & h & sfx & E & Rc & Tr & P).
      { eapply Forall_impl; [exact F|]. intros [[w ?] ?]. cbn [fst].
        destruct w; [reflexivity|]. cbn. now rewrite T1. }
      exists c, h, (sfx1 ++ sfx)%list. split; [exact E|]. split; [exact Rc|].
      split; [now rewrite Tr, Tr1, app_assoc|].
      rewrite renderReturns_app, Ret1, P, RR1. reflexivity.
    + destruct (@marshaled_render_runs c0 h0 t time renderImage R Cb)
        as (c1 & sfx1 & E1 & R1 & RR1 & T1 & Tr1 & Ret1).
      rewrite run_sync_marshaledRender by exact Q. rewrite E1.
      destruct (IH c1 _ R1) as (c & h & sfx & E & Rc & Tr & P).
      { eapply Forall_impl; [exact F|]. intros [[w ?] ?]. cbn [fst].
        eapply callable_after; eauto. }
      exists c, h, (sfx1 ++ sfx)%list. split; [exact E|]. split; [exact Rc|].
      split; [now rewrite Tr, Tr1, app_assoc|].
      rewrite renderReturns_app, Ret1, P, RR1. reflexivity.
Qed.

Lemma expected_latest calls : forall h v, inPlaceReturnsLatest v (expected calls h v).
Proof.
  induction calls as [|[[who time] renderImage] calls IH]; intros h v; [exact I|].
  destruct who; cbn [expected inPlaceReturnsLatest]; auto.
Qed.

(** [render] on the GUI thread while no call is in progress. *)
Lemma render_fast_path c h time renderImage :
  alive c = true -> content (this c) = Some h ->
  mutex (this c) = None -> waitCondition (this c) = None ->
  exists c',
    exec (LBegin UIThread (Render time renderImage)) c = Next c' /\
    this c' = set_content (Some (snd (rendered time renderImage h))) (this c) /\
    queue c' = queue c /\ threads c' = threads c /\
    leftBehind c' = leftBehind c /\
    trace c'
    = (trace c
         ++ [(UIThread,
              ASetContentSize (mkQSize (imageWidth renderImage) (imageHeight renderImage)));
             (UIThread, ARenderContent time renderImage);
             (UIThread, AReturn OpRender (RBool (renderResult (this c))))])%list.
Proof.
  intros A C Mx W.
  destruct c as [[ct m w ir rr] al g q ts tr lb]; cbn in A, C, Mx, W; subst.
  cbn [exec begin callable onUIThread]. unfold inPlace, runBody. reduce.
  rewrite render_inPlace_resting.
  cbn [existsb blockedOn orb fold_left wake flat_map posted left app]. reduce.
  eexists. split; [reflexivity|]. repeat split.
Qed.


(** C10 (as the code has it).  With [mutex] and [waitCondition] null,
    [renderComplete] leaves the object as it is and wakes nobody; so a
    [render] on the GUI thread made while both are null returns -- and
    does return -- the [renderResult] stored before the call, whatever
    [renderContent] answered.  [renderResult] is [false] in a new object
    and is left alone by the slots of [initialize] and [reload]; the only
    step that changes it is a run of [renderInvokable] that finds both
    pointers set -- the delivery of a marshaled [render], or a [render] on
    the GUI thread while a worker's call is in progress -- and it stores
    the answer of [renderContent] to that run.  So after any execution
    from a new object a render on the GUI thread made while both pointers
    are null returns what the latest such run stored, [false] if there was
    none.  In a history of renders made one after the other on a resting
    object the returns are those of [expected]: a render on the GUI thread
    returns the value of the latest render made by a worker, or the value
    [renderResult] had at the start. *)
Theorem renderComplete_without_call :
  (forall o result,
     mutex o = None -> waitCondition o = None ->
     renderComplete result o = Done tt o []) /\
  renderResult EffectsImpl_new = false /\
  (forall url size parameters isPlain isTransparent r,
     keepsRenderResult (initializeInvokable url size parameters isPlain isTransparent) /\
     keepsRenderResult (initializeComplete r) /\
     keepsRenderResult reloadInvokable) /\
  (forall c h time renderImage,
     alive c = true -> content (this c) = Some h ->
     mutex (this c) = None -> waitCondition (this c) = None ->
     exists c',
       exec (LBegin UIThread (Render time renderImage)) c = Next c' /\
       renderResult (this c') = renderResult (this c) /\
       content (this c') = Some (snd (rendered time renderImage h)) /\
       queue c' = queue c /\ threads c' = threads c /\
       trace c'
       = (trace c
            ++ [(UIThread,
                 ASetContentSize
                   (mkQSize (imageWidth renderImage) (imageHeight renderImage)));
                (UIThread, ARenderContent time renderImage);
                (UIThread, AReturn OpRender (RBool (renderResult (this c))))])%list) /\
  (forall l c c',
     exec l c = Next c' ->
     renderResult (this c') <> renderResult (this c) ->
     exists t w h time renderImage,
       mutex (this c) = Some t /\ waitCondition (this c) = Some w /\
       content (this c) = Some h /\
       renderResult (this c') = fst (rendered time renderImage h) /\
       (l = LBegin UIThread (Render time renderImage) \/
        (l = LLoop /\
         exists q,
           queue c = MetaCallEvent (renderInvokableCall time renderImage) :: q))) /\
  (forall n ls c h time renderImage,
     run ls (init n) = Next c ->
     alive c = true -> content (this c) = Some h ->
     mutex (this c) = None -> waitCondition (this c) = None ->
     renderResult (this c) = lastStored ls (init n) false /\
     exists c',
       exec (LBegin UIThread (Render time renderImage)) c = Next c' /\
       renderReturns (trace c')
       = (renderReturns (trace c) ++ [(UIThread, lastStored ls (init n) false)])%list) /\
  (forall calls c0 h0,
     resting c0 h0 ->
     Forall (fun call : Thread * TimePoint * Image =>
               callable c0 (fst (fst call)) = true) calls ->
     exists c suffix,
       run (schedule calls) c0 = Next c /\
       trace c = (trace c0 ++ suffix)%list /\
       renderReturns suffix = expected calls h0 (renderResult (this c0)) /\
       inPlaceReturnsLatest (renderResult (this c0)) (renderReturns suffix)).
Proof.
  split; [|split; [|split; [|split; [|split; [|split]]]]].
  - intros [ct m w ir rr] result Mx W. cbn in Mx, W. subst. reflexivity.
  - reflexivity.
  - intros. split; [|split].
    + apply keepsRenderResult_initializeInvokable.
    + apply keepsRenderResult_initializeComplete.
    + apply keepsRenderResult_reloadInvokable.
  - intros c h time renderImage A C Mx W.
    destruct (@render_fast_path c h time renderImage A C Mx W)
      as (c' & E & T & Qu & Th & _ & Tr).
    exists c'. split; [exact E|]. rewrite T. repeat split; assumption.
  - apply renderResult_step.
  - intros n ls c h time renderImage R A C Mx W.
    pose proof (renderResult_run _ _ R) as S. cbn [init this renderResult] in S.
    change (renderResult EffectsImpl_new) with false in S.
    split; [exact S|].
    destruct (@render_fast_path c h time renderImage A C Mx W)
      as (c' & E & _ & _ & _ & _ & Tr).
    exists c'. split; [exact E|]. rewrite Tr, renderReturns_app, S. reflexivity.
  - intros calls c0 h0 R F.
    destruct (render_history R F) as (c & h & sfx & E & _ & Tr & P).
    exists c, sfx. split; [now apply run_sync_run|]. split; [exact Tr|].
    split; [exact P|]. rewrite P. apply expected_latest.
Qed.

(** *** Every synchronized history of renders *)






(** *** Marshaled calls, from entry to return *)

Lemma run_app ls1 ls2 c :
  run (ls1 ++ ls2) c = match run ls1 c with Next c' => run ls2 c' | r => r end.
Proof.
  revert c. induction ls1 as [|l ls1 IH]; intros c; [reflexivity|].
  cbn [app run]. destruct (exec l c); auto.
Qed.

Lemma quiet_unblocked ts acts :
  forallb quiet acts = true -> existsb (blockedOn ts) acts = false.
Proof.
  induction acts as [|a acts IH]; [reflexivity|]. cbn [forallb existsb].
  intros Q. apply andb_true_iff in Q as [Qa Q]. rewrite (IH Q).
  destruct a; try discriminate; reflexivity.
Qed.

Lemma quiet_posts acts : forallb quiet acts = true -> flat_map posted acts = [].
Proof.
  induction acts as [|a acts IH]; [reflexivity|]. cbn [forallb flat_map].
  intros Q. apply andb_true_iff in Q as [Qa Q]. rewrite (IH Q).
  destruct a; try discriminate; reflexivity.
Qed.

Lemma quiet_wakes acts : forall ts : list ThreadState,
  forallb quiet acts = true -> fold_left wake acts ts = ts.
Proof.
  induction acts as [|a acts IH]; intros ts; [reflexivity|]. cbn [forallb fold_left].
  intros Q. apply andb_true_iff in Q as [Qa Q].
  destruct a; try discriminate; cbn [wake]; auto.
Qed.

Lemma runBody_quiet who m c o acts :
  m (this c) = Done tt o acts -> forallb quiet acts = true ->
  runBody who m c
  = Next {| this := o; alive := alive c; onGui := onGui c; queue := queue c;
            threads := threads c; trace := trace c ++ map (pair who) acts;
            leftBehind := leftBehind c ++ flat_map left acts |}.
Proof.
  intros E Q. unfold runBody.
  rewrite E, quiet_unblocked, quiet_posts, quiet_wakes, app_nil_r by exact Q.
  reflexivity.
Qed.

Lemma initializeInvokable_wiring url size parameters isPlain isTransparent o :
  supported url = true ->
  initializeInvokable url size parameters isPlain isTransparent o
  = Done tt (set_content (Some (loading url size parameters isPlain isTransparent)) o)
      (wiring url size parameters isPlain isTransparent (content o)).
Proof.
  unfold supported, loading, wiring, webLocator.
  destruct (QString.endsWith (path url) ".html" || QString.endsWith (path url) ".htm"
            || negb (isLocalFile url)) eqn:E1.
  - intros _. rewrite initializeInvokable_web by exact E1.
    destruct isTransparent; reflexivity.
  - cbn [orb]. intros E2. rewrite initializeInvokable_qml by assumption. reflexivity.
Qed.

Lemma wiring_left url size parameters isPlain isTransparent old :
  flat_map left (wiring url size parameters isPlain isTransparent old) = behind old.
Proof.
  unfold wiring. destruct old, (webLocator url && isTransparent); reflexivity.
Qed.

Lemma initializeInvokable_supported url size parameters isPlain isTransparent o :
  supported url = true ->
  exists acts,
    initializeInvokable url size parameters isPlain isTransparent o
    = Done tt (set_content (Some (loading url size parameters isPlain isTransparent)) o)
        acts /\
    forallb quiet acts = true /\
    forallb (fun a => negb (isDelete a)) acts = true /\
    flat_map left acts = behind (content o).
Proof.
  intros Su. eexists. split; [apply initializeInvokable_wiring; exact Su|].
  rewrite wiring_left. unfold wiring.
  destruct (content o), (webLocator url && isTransparent); repeat split.
Qed.

Lemma initializeComplete_marshaled ct m w ir rr result :
  initializeComplete result (mkEffectsImpl ct (Some m) (Some w) ir rr)
  = Done tt (mkEffectsImpl ct (Some m) (Some w) result rr) [ALock (Some m); AWakeAll w].
Proof. reflexivity. Qed.

Lemma completionSignal_pending isPlain :
  existsb (Signal_eqb (completionSignal isPlain)) loadSignals = true.
Proof. destruct isPlain; reflexivity. Qed.

Lemma completionSignal_connected isPlain :
  existsb (Signal_eqb (completionSignal isPlain)) [completionSignal isPlain] = true.
Proof. destruct isPlain; reflexivity. Qed.

Lemma loading_pending url size parameters isPlain isTransparent :
  pending (loading url size parameters isPlain isTransparent) = loadSignals.
Proof. unfold loading. destruct (webLocator url); reflexivity. Qed.

Lemma loading_connections url size parameters isPlain isTransparent :
  connections (loading url size parameters isPlain isTransparent)
  = [completionSignal isPlain].
Proof. unfold loading. destruct (webLocator url); reflexivity. Qed.

(** A marshaled [initialize] of a supported locator on an object at rest,
    left alone, runs through the hand-off, the construction and the load,
    and returns the argument of the completion signal. *)
Lemma marshaled_initialize_runs
    c t fileName width height parameters isTransparent url isPlain ok :
  atRest c -> callable c (Worker t) = true ->
  resolveLocator fileName = Some (url, isPlain) ->
  supported url = true ->
  exists c' suffix,
    run (marshaledInitialize t fileName width height parameters isTransparent
           (completionSignal isPlain) ok) c = Next c' /\
    resting c'
      (set_pending (without (completionSignal isPlain) loadSignals)
         (loading url (mkQSize width height) parameters isPlain isTransparent)) /\
    initializeResult (this c') = ok /\
    renderResult (this c') = renderResult (this c) /\
    threads c' = <[t := Returned OpInitialize (RBool ok)]> (threads c) /\
    trace c' = (trace c ++ suffix)%list /\
    deletions suffix = 0 /\
    leftBehind c' = (leftBehind c ++ behind (content (this c)))%list.
Proof.
  intros (A & Q & Mx & W & Qs) Cb RL Su.
  pose proof (callable_lt _ _ Cb) as L.
  destruct c as [[ct m w ir rr] al g q ts tr lb]; cbn in A, Q, Mx, W, L; subst.
  unfold marshaledInitialize, steps. cbn [replicate app].
  rewrite run_cons. cbn [exec]. unfold begin, initialize_prologue. rewrite Cb.
  cbn [onUIThread]. rewrite RL. cbn [enter]. reduce.
  do 6 thread_step L.
  rewrite run_cons. cbn [exec]. unfold deliver. reduce.
  destruct (@initializeInvokable_supported url (mkQSize width height) parameters isPlain
              isTransparent (mkEffectsImpl ct (Some t) (Some t) ir rr) Su)
    as (acts & EI & Qa & Da & Lb).
  erewrite runBody_quiet; [|cbn [invoke this]; exact EI|exact Qa]. reduce.
  rewrite Lb. cbn [content].
  rewrite run_cons. cbn [exec]. unfold emitSignal. cbn [emitter emitted]. reduce.
  cbn [set_content content].
  rewrite loading_pending, completionSignal_pending.
  cbn [connections set_pending]. rewrite loading_connections, completionSignal_connected.
  unfold runBody. reduce. cbn [set_content content mutex waitCondition initializeResult
    renderResult]. rewrite initializeComplete_marshaled.
  cbn [existsb blockedOn held orb fold_left wake flat_map posted left app].
  rewrite held_insert, !list_lookup_insert_eq by exact L. reduce.
  cbn [holdsMutex orb]. reduce.
  do 5 thread_step L.
  eexists _, _. split; [reflexivity|]. cbn [this threads trace renderResult initializeResult].
  rewrite <- !app_assoc. repeat split.
  - eapply quiescent_after; [|exact Qs]. reflexivity.
  - rewrite !deletions_app, (deletions_none _ _ Da). reflexivity.
Qed.

(** X5.  A marshaled [initialize] of a supported locator, entered by a
    worker on an object at rest and left alone, returns: the caller gets
    the argument of the signal connected to [initializeComplete], also
    stored in [initializeResult]; the object is then at rest on the GUI
    thread with the handler just constructed, whatever the load answered;
    and a content the object had before has been replaced without being
    deleted. *)
Theorem initialize_returns_load_result
    c t fileName width height parameters isTransparent url isPlain ok :
  atRest c -> callable c (Worker t) = true ->
  resolveLocator fileName = Some (url, isPlain) ->
  supported url = true ->
  exists c',
    run (marshaledInitialize t fileName width height parameters isTransparent
           (completionSignal isPlain) ok) c = Next c' /\
    threads c' !! t = Some (Returned OpInitialize (RBool ok)) /\
    initializeResult (this c') = ok /\
    resting c'
      (set_pending (without (completionSignal isPlain) loadSignals)
         (loading url (mkQSize width height) parameters isPlain isTransparent)) /\
    deletions (trace c') = deletions (trace c).
Proof.
  intros R Cb RL Su.
  destruct (@marshaled_initialize_runs c t fileName width height parameters isTransparent
              url isPlain ok R Cb RL Su)
    as (c' & sfx & E & Rs & IR & _ & T & Tr & D & _).
  exists c'. split; [exact E|]. split; [|split; [exact IR|split; [exact Rs|]]].
  - rewrite T. apply list_lookup_insert_eq. now apply callable_lt.
  - rewrite Tr, deletions_app, D. lia.
Qed.

(** X6.  [initialize] then [render], each from a worker: the render is
    answered by the handler that [initialize] constructed and loaded, and
    its caller is returned that answer, whether [initialize] returned
    [true] or [false]. *)
Theorem render_after_initialize
    c t u fileName width height parameters isTransparent url isPlain ok time renderImage :
  atRest c -> callable c (Worker t) = true -> callable c (Worker u) = true ->
  resolveLocator fileName = Some (url, isPlain) ->
  supported url = true ->
  exists c',
    run (marshaledInitialize t fileName width height parameters isTransparent
           (completionSignal isPlain) ok
         ++ marshaledRender u time renderImage) c = Next c' /\
    threads c' !! u
      = Some (Returned OpRender
                (RBool (fst (rendered time renderImage
                               (loading url (mkQSize width height) parameters
                                  isPlain isTransparent))))) /\
    renderResult (this c')
      = fst (rendered time renderImage
               (loading url (mkQSize width height) parameters isPlain isTransparent)) /\
    initializeResult (this c') = ok.
Proof.
  intros R Ct Cu RL Su.
  destruct (@marshaled_initialize_runs c t fileName width height parameters isTransparent
              url isPlain ok R Ct RL Su) as (c1 & sfx & E & Rs & IR & _ & T & _ & _).
  assert (Cu1 : callable c1 (Worker u) = true) by (eapply callable_after; eauto).
  destruct (@marshaled_render_runs c1 _ u time renderImage Rs Cu1)
    as (c2 & sfx2 & E2 & Rs2 & RR & T2 & Tr2 & _).
  exists c2. rewrite run_app, E. split; [exact E2|]. split; [|split].
  - rewrite T2. apply list_lookup_insert_eq. now apply callable_lt.
  - exact RR.
  - destruct c1 as [[ct1 m1 w1 ir1 rr1] al1 g1 q1 ts1 tr1].
    destruct Rs as (A1 & G1 & Q1 & C1 & Mx1 & W1 & Qs1).
    cbn in A1, G1, Q1, C1, Mx1, W1, IR. subst.
    revert E2. unfold marshaledRender, steps. cbn [replicate app].
    pose proof (callable_lt _ _ Cu1) as L. cbn in L.
    rewrite run_cons. cbn [exec]. unfold begin. rewrite Cu1.
    cbn [onUIThread enter]. reduce.
    do 5 thread_step L.
    rewrite run_cons. cbn [exec]. unfold deliver. reduce.
    unfold runBody. reduce. cbn [invoke].
    rewrite renderInvokable_marshaled.
    cbn [existsb blockedOn held orb fold_left wake flat_map posted left app].
    rewrite held_insert, !list_lookup_insert_eq by exact L. reduce.
    cbn [holdsMutex orb]. reduce.
    do 5 thread_step L.
    intros [= <-]. reflexivity.
Qed.

Lemma reloadInvokable_marshaled h m w ir rr :
  reloadInvokable (mkEffectsImpl (Some h) m w ir rr)
  = Done tt
      (mkEffectsImpl (Some (set_pending loadSignals (set_engine (reload (engine h)) h)))
         m w ir rr)
      [AReload].
Proof. reflexivity. Qed.

Lemma signal_pending s : existsb (Signal_eqb s) loadSignals = true.
Proof. destruct s; reflexivity. Qed.

(** X7.  A marshaled [reload], entered by a worker on a resting object and
    left alone: once [reloadInvokable] has been delivered the caller is
    asleep and neither it nor the event loop can take a step; a signal of
    the content that is not connected to [initializeComplete] leaves it
    asleep; the connected signal wakes it, [reload] returns, and the
    argument of the signal has overwritten [initializeResult]. *)
Theorem reload_returns_on_load_signal c h t s ok :
  resting c h -> callable c (Worker t) = true ->
  exists c1,
    run (reloadPosted t) c = Next c1 /\
    threads c1 = <[t := Running (mkFrame reloadInvokableCall PcWaiting)]> (threads c) /\
    exec (LThread t) c1 = Disabled /\ exec LLoop c1 = Disabled /\
    (existsb (Signal_eqb s) (connections h) = false ->
     exists c2, exec (LSignal s ok) c1 = Next c2 /\ threads c2 = threads c1) /\
    (existsb (Signal_eqb s) (connections h) = true ->
     exists c2,
       run (LSignal s ok :: steps t 5) c1 = Next c2 /\
       threads c2 = <[t := Returned OpReload RVoid]> (threads c) /\
       initializeResult (this c2) = ok /\
       resting c2 (set_pending (without s loadSignals)
                     (set_engine (reload (engine h)) h))).
Proof.
  intros (A & G & Q & C & Mx & W & Qs) Cb.
  pose proof (callable_lt _ _ Cb) as L.
  destruct c as [[ct m w ir rr] al g q ts tr lb]; cbn in A, G, Q, C, Mx, W, L; subst.
  unfold reloadPosted, steps. cbn [replicate app].
  rewrite run_cons. cbn [exec]. unfold begin. rewrite Cb.
  cbn [onUIThread enter]. reduce.
  do 5 thread_step L.
  rewrite run_cons. cbn [exec]. unfold deliver. reduce.
  unfold runBody. reduce. cbn [invoke].
  rewrite reloadInvokable_marshaled.
  cbn [existsb blockedOn held orb fold_left wake flat_map posted left app]. reduce.
  eexists. split; [reflexivity|].
  split; [reflexivity|]. split; [|split; [|split]].
  - cbn [exec threads]. rewrite list_lookup_insert_eq by exact L. reflexivity.
  - reflexivity.
  - intros Cn. cbn [exec]. unfold emitSignal. cbn [emitter emitted]. reduce.
    cbn [content pending set_pending].
    rewrite signal_pending.
    change (connections (set_pending loadSignals (set_engine (reload (engine h)) h)))
      with (connections h).
    rewrite Cn.
    eexists. split; reflexivity.
  - intros Cn. unfold steps. cbn [replicate].
    rewrite run_cons. cbn [exec]. unfold emitSignal. cbn [emitter emitted]. reduce.
    cbn [content pending set_pending].
    rewrite signal_pending.
    change (connections (set_pending loadSignals (set_engine (reload (engine h)) h)))
      with (connections h).
    rewrite Cn.
    unfold runBody. reduce. cbn [set_content content mutex waitCondition initializeResult
      renderResult]. rewrite initializeComplete_marshaled.
    cbn [existsb blockedOn held orb fold_left wake flat_map posted left app].
    rewrite held_insert, !list_lookup_insert_eq by exact L. reduce.
    cbn [holdsMutex orb]. reduce.
    do 5 thread_step L.
    eexists. split; [reflexivity|]. cbn [this threads initializeResult].
    repeat split.
    eapply quiescent_after; [|exact Qs]. reflexivity.
Qed.

(** *** Slots run while no call is in progress *)

Lemma reload_inPlace_resting h ir rr :
  reload_inPlace (mkEffectsImpl (Some h) None None ir rr)
  = Done tt
      (mkEffectsImpl (Some (set_pending loadSignals (set_engine (reload (engine h)) h)))
         None None ir rr)
      [AReload; AReturn OpReload RVoid].
Proof. reflexivity. Qed.

(** X8.  [initializeComplete] has no guard like that of [renderComplete]:
    when the content emits the signal connected to it while [mutex] and
    [waitCondition] are null, it calls [wakeAll] through the null
    [waitCondition].  [reload] on the GUI thread starts a load and installs
    no wait condition, so the signal that ends that load reaches the null
    pointer. *)
Theorem load_signal_without_call c h s ok :
  content (this c) = Some h ->
  mutex (this c) = None -> waitCondition (this c) = None ->
  existsb (Signal_eqb s) (connections h) = true ->
  (existsb (Signal_eqb s) (pending h) = true -> exec (LSignal s ok) c = Crash) /\
  (alive c = true ->
   exists c1, exec (LBegin UIThread Reload) c = Next c1 /\
              exec (LSignal s ok) c1 = Crash).
Proof.
  intros C Mx W Cn.
  destruct c as [[ct m w ir rr] al g q ts tr lb]; cbn in C, Mx, W; subst. split.
  - intros Pe. cbn [exec]. unfold emitSignal. cbn [emitter emitted this content]. rewrite Pe, Cn.
    reflexivity.
  - cbn [alive]. intros ->.
    cbn [exec begin callable onUIThread]. unfold inPlace, runBody. reduce.
    rewrite reload_inPlace_resting.
    cbn [existsb blockedOn orb fold_left wake flat_map posted left app]. reduce.
    eexists. split; [reflexivity|].
    cbn [exec]. unfold emitSignal. cbn [emitter emitted this content].
    change (pending (set_pending loadSignals (set_engine (reload (engine h)) h)))
      with loadSignals.
    change (connections (set_pending loadSignals (set_engine (reload (engine h)) h)))
      with (connections h).
    rewrite signal_pending, Cn. reflexivity.
Qed.

Lemma render_inPlace_marshaled h m w ir rr time renderImage :
  render_inPlace time renderImage (mkEffectsImpl (Some h) (Some m) (Some w) ir rr)
  = Done tt
      (mkEffectsImpl (Some (snd (rendered time renderImage h))) (Some m) (Some w) ir
         (fst (rendered time renderImage h)))
      [ASetContentSize (mkQSize (imageWidth renderImage) (imageHeight renderImage));
       ARenderContent time renderImage; ALock (Some m); AWakeAll w;
       AReturn OpRender (RBool (fst (rendered time renderImage h)))].
Proof. reflexivity. Qed.

(** X9.  [render] on the GUI thread while a worker is asleep in a
    marshaled call -- an [initialize], a [render] or a [reload]: the guard
    of [renderComplete] finds the worker's mutex and wait condition, so the
    answer of [renderContent] is stored and returned to the GUI caller, and
    the worker is woken although its own call has not completed; it then
    returns what the object holds for its operation, the [initializeResult]
    left by an earlier load in the case of [initialize]. *)
Theorem render_on_owner_thread_wakes_caller c h t m time renderImage :
  alive c = true -> content (this c) = Some h ->
  mutex (this c) = Some t -> waitCondition (this c) = Some t ->
  threads c !! t = Some (Running (mkFrame m PcWaiting)) ->
  exists c1 c2,
    exec (LBegin UIThread (Render time renderImage)) c = Next c1 /\
    threads c1 = <[t := Running (mkFrame m PcWoken)]> (threads c) /\
    renderResult (this c1) = fst (rendered time renderImage h) /\
    initializeResult (this c1) = initializeResult (this c) /\
    queue c1 = queue c /\
    renderReturns (trace c1)
      = (renderReturns (trace c) ++ [(UIThread, fst (rendered time renderImage h))])%list /\
    run (steps t 5) c1 = Next c2 /\
    threads c2 = <[t := Returned (opOf m) (resultOf m (this c1))]> (threads c) /\
    queue c2 = queue c.
Proof.
  intros A C Mx W Lk.
  pose proof (lookup_lt_Some _ _ _ Lk) as L.
  destruct c as [[ct mx w ir rr] al g q ts tr lb]; cbn in A, C, Mx, W, Lk, L; subst.
  cbn [exec begin callable onUIThread]. unfold inPlace, runBody. reduce.
  rewrite render_inPlace_marshaled.
  cbn [existsb blockedOn held orb fold_left wake flat_map posted left app]. unfold held.
  rewrite Lk. cbn [pc call holdsMutex orb]. reduce.
  eexists _, _. split; [reflexivity|].
  cbn [this threads queue trace renderResult initializeResult].
  split; [reflexivity|]. split; [reflexivity|]. split; [reflexivity|].
  split; [now rewrite ?app_nil_r|]. split; [rewrite renderReturns_app; reflexivity|].
  unfold steps. cbn [replicate]. do 4 thread_step L.
  rewrite run_cons, exec_thread by exact L. reduce.
  destruct (readsResult m); cbn [run];
    (split; [reflexivity|]; cbn [threads queue]; rewrite ?app_nil_r; split; reflexivity).
Qed.

(** *** What [initializeInvokable] does with its arguments *)

(** X10.  The transparency flag reaches a [WebContent] only: a QML scene
    and an unsupported locator are treated the same with and without it,
    while for a [WebContent] [setTransparent] is called exactly when the
    flag is set, on the handler just constructed and before it loads. *)
Theorem transparency_only_for_web url size parameters isPlain o :
  (webLocator url = false ->
   initializeInvokable url size parameters isPlain true o
   = initializeInvokable url size parameters isPlain false o) /\
  (webLocator url = true ->
   forall isTransparent,
   exists o' acts h,
     initializeInvokable url size parameters isPlain isTransparent o = Done tt o' acts /\
     (In ASetTransparent acts <-> isTransparent = true) /\
     content o' = Some h /\
     engine h = loadContent url
                  ((if isTransparent then setTransparent else fun e => e)
                     (construct WebContentV size parameters))).
Proof.
  unfold webLocator. split.
  - intros E. unfold initializeInvokable. rewrite E. reflexivity.
  - intros E isTransparent. eexists _, _, _.
    split; [apply initializeInvokable_web; exact E|].
    split; [|split; reflexivity].
    destruct (content o), isTransparent; cbn; split; auto; try discriminate;
      intros H; repeat (destruct H as [H|H]; try discriminate); destruct H.
Qed.

(** *** A locator [initializeInvokable] has no handler for *)

(** X11.  [initialize] of a valid locator that is neither a document nor a
    QML scene, entered by a worker on an object at rest with no load signal
    outstanding, from its content or from a handler left behind:
    [initializeInvokable] logs and constructs nothing, no signal is
    connected, and the caller is left asleep -- no step other than a new
    call can be taken, so [initialize] does not return. *)
Theorem unsupported_locator_strands_caller
    c t fileName width height parameters isTransparent url isPlain :
  atRest c -> settled c -> callable c (Worker t) = true ->
  resolveLocator fileName = Some (url, isPlain) ->
  supported url = false ->
  exists c',
    run (initializePosted t fileName width height parameters isTransparent) c
      = Next c' /\
    content (this c') = content (this c) /\
    leftBehind c' = leftBehind c /\
    trace c' = (trace c ++ [(UIThread, ALog (unsupportedMessage ++ path url))])%list /\
    threads c'
      = <[t := Running (mkFrame (initializeInvokableCall url (mkQSize width height)
                                   parameters isPlain isTransparent) PcWaiting)]>
          (threads c) /\
    forall l, isBegin l = false -> exec l c' = Disabled.
Proof.
  intros (A & Q & Mx & W & Qs) [Pn Cm] Cb RL Su.
  pose proof (callable_lt _ _ Cb) as L.
  destruct c as [[ct m w ir rr] al g q ts tr lb]; cbn in A, Q, Mx, W, L, Pn, Cm; subst.
  unfold supported in Su. apply orb_false_iff in Su as [E1 E2].
  unfold initializePosted, steps. cbn [replicate app].
  rewrite run_cons. cbn [exec]. unfold begin, initialize_prologue. rewrite Cb.
  cbn [onUIThread]. rewrite RL. cbn [enter]. reduce.
  do 6 thread_step L.
  rewrite run_cons. cbn [exec]. unfold deliver. reduce.
  erewrite runBody_quiet;
    [|cbn [invoke this]; apply initializeInvokable_unsupported; assumption|reflexivity].
  reduce. cbn [run flat_map left]. rewrite ?app_nil_r.
  eexists. split; [reflexivity|]. split; [reflexivity|]. split; [reflexivity|].
  split; [reflexivity|]. split; [reflexivity|].
  intros [who op|u| |s ok|i s ok] B; [discriminate| | | |]; cbn [exec].
  - cbn [threads]. destruct (Nat.eq_dec u t) as [->|N].
    + rewrite list_lookup_insert_eq by exact L. reflexivity.
    + rewrite list_lookup_insert_ne by auto.
      destruct (ts !! u) as [[|f|]|] eqn:Lu; try reflexivity.
      pose proof (@quiescent_idle _ _ _ u _ Qs Lu) as R. discriminate.
  - reflexivity.
  - unfold emitSignal. cbn [emitter emitted this content].
    destruct ct as [h|]; [|reflexivity].
    rewrite (Pn h eq_refl). reflexivity.
  - unfold emitSignal. cbn [emitter emitted leftBehind].
    destruct (lb !! i) as [x|] eqn:Lx; [|reflexivity].
    rewrite (calm_lookup _ Cm Lx). reflexivity.
Qed.

(** *** Which signal ends [initialize] *)

Lemma initialize_posted
    ct ir rr g ts tr lb t fileName width height parameters isTransparent url isPlain :
  t < length ts ->
  callable (mkConfig (mkEffectsImpl ct None None ir rr) true g [] ts tr lb) (Worker t)
    = true ->
  resolveLocator fileName = Some (url, isPlain) ->
  supported url = true ->
  exists acts,
    run (initializePosted t fileName width height parameters isTransparent)
      (mkConfig (mkEffectsImpl ct None None ir rr) true g [] ts tr lb)
    = Next (mkConfig
              (mkEffectsImpl
                 (Some (loading url (mkQSize width height) parameters isPlain
                          isTransparent))
                 (Some t) (Some t) ir rr)
              true true []
              (<[t := Running (mkFrame (initializeInvokableCall url (mkQSize width height)
                                          parameters isPlain isTransparent) PcWaiting)]> ts)
              (tr ++ map (pair UIThread) acts)
              (lb ++ behind ct)).
Proof.
  intros L Cb RL Su.
  unfold initializePosted, steps. cbn [replicate app].
  rewrite run_cons. cbn [exec]. unfold begin, initialize_prologue. rewrite Cb.
  cbn [onUIThread]. rewrite RL. cbn [enter]. reduce.
  do 6 thread_step L.
  rewrite run_cons. cbn [exec]. unfold deliver. reduce.
  destruct (@initializeInvokable_supported url (mkQSize width height) parameters isPlain
              isTransparent (mkEffectsImpl ct (Some t) (Some t) ir rr) Su)
    as (acts & EI & Qa & _ & Lb).
  erewrite runBody_quiet; [|cbn [invoke this]; exact EI|exact Qa]. reduce.
  rewrite Lb. exists acts. reflexivity.
Qed.


(** *** Handlers left behind *)

Lemma initializeComplete_unmarshaled ct ir rr result :
  initializeComplete result (mkEffectsImpl ct None None ir rr)
  = NullDeref unit [ALock None].
Proof. reflexivity. Qed.

(** X15.  A second [initialize] replaces the content without deleting or
    disconnecting the handler the object had: that handler is left behind,
    connected as it was.  If it still has a load outstanding whose signal
    is connected to [initializeComplete], that signal, arriving after the
    second [initialize] has returned, calls [wakeAll] through the null
    [waitCondition]; arriving while a worker is asleep in a [render], it
    wakes the worker before [renderInvokable] has run, and the [render]
    returns the stored [renderResult] with its invocation still queued. *)
Theorem replaced_handler_stays_connected
    c t fileName width height parameters isTransparent url isPlain ok h0 :
  atRest c -> callable c (Worker t) = true ->
  resolveLocator fileName = Some (url, isPlain) ->
  supported url = true ->
  content (this c) = Some h0 ->
  exists c',
    run (marshaledInitialize t fileName width height parameters isTransparent
           (completionSignal isPlain) ok) c = Next c' /\
    leftBehind c' = (leftBehind c ++ [h0])%list /\
    deletions (trace c') = deletions (trace c) /\
    mutex (this c') = None /\ waitCondition (this c') = None /\
    forall s r,
      existsb (Signal_eqb s) (pending h0) = true ->
      existsb (Signal_eqb s) (connections h0) = true ->
      exec (LStray (length (leftBehind c)) s r) c' = Crash /\
      forall u time renderImage,
        callable c' (Worker u) = true ->
        exists c1 c2,
          run (LBegin (Worker u) (Render time renderImage) :: steps u 5) c' = Next c1 /\
          run (LStray (length (leftBehind c)) s r :: steps u 5) c1 = Next c2 /\
          threads c2 !! u
            = Some (Returned OpRender (RBool (renderResult (this c)))) /\
          queue c2 = [MetaCallEvent (renderInvokableCall time renderImage)].
Proof.
  intros R Cb RL Su C.
  destruct (@marshaled_initialize_runs c t fileName width height parameters isTransparent
              url isPlain ok R Cb RL Su)
    as (c' & sfx & E & Rs & IR & RR & T & Tr & D & Lb).
  rewrite C in Lb. cbn [behind] in Lb.
  exists c'. split; [exact E|]. split; [exact Lb|].
  split; [rewrite Tr, deletions_app, D; lia|].
  destruct Rs as (A' & G' & Q' & C' & Mx' & W' & Qs').
  split; [exact Mx'|]. split; [exact W'|].
  intros s r Pe Cn.
  assert (Lk : leftBehind c' !! length (leftBehind c) = Some h0)
    by (rewrite Lb; apply list_lookup_middle; reflexivity).
  destruct c' as [[ct' m' w' ir' rr'] al' g' q' ts' tr' lb'].
  cbn [this alive onGui queue content mutex waitCondition leftBehind renderResult]
    in A', G', Q', C', Mx', W', Lk, RR.
  subst al' g' q' ct' m' w' rr'. split.
  - cbn [exec]. unfold emitSignal. cbn [emitter emitted leftBehind].
    rewrite Lk, Pe, Cn. unfold runBody. reduce.
    rewrite initializeComplete_unmarshaled. reflexivity.
  - intros u time renderImage Cu. pose proof (callable_lt _ _ Cu) as L. cbn in L.
    unfold steps. cbn [replicate].
    rewrite run_cons. cbn [exec]. unfold begin. rewrite Cu.
    cbn [onUIThread enter]. reduce.
    do 5 thread_step L.
    eexists _, _. split; [reflexivity|].
    rewrite run_cons. cbn [exec]. unfold emitSignal. cbn [emitter emitted leftBehind].
    rewrite Lk, Pe, Cn. unfold runBody. reduce.
    rewrite initializeComplete_marshaled.
    cbn [existsb blockedOn held orb fold_left wake flat_map posted left app].
    rewrite held_insert, !list_lookup_insert_eq by exact L. reduce.
    cbn [holdsMutex orb]. reduce.
    do 5 thread_step L.
    split; [reflexivity|]. cbn [threads queue].
    split; [apply list_lookup_insert_eq; exact L|reflexivity].
Qed.

(** *** What [initializeInvokable] wires *)

(** C3.  For a locator it has a handler for, [initializeInvokable]
    constructs the handler, connects exactly one of its signals to
    [initializeComplete] -- the pre-load signal in plain mode, the
    full-load signal otherwise, for either variant -- and only then calls
    [loadContent]; for any other locator it wires and loads nothing.  In a
    marshaled [initialize], once [initializeInvokable] has been delivered,
    the caller is asleep on the pair the object points to; the signal so
    chosen stores its argument and wakes the caller, the other signal does
    neither. *)
Theorem initializeInvokable_wires_before_load
    url width height parameters isPlain isTransparent o :
  let size := mkQSize width height in
  let v := if webLocator url then WebContentV else QmlContentV in
  (supported url = true ->
   exists h,
     initializeInvokable url size parameters isPlain isTransparent o
     = Done tt (set_content (Some h) o)
         (ANewContent v size parameters
            :: leaving (content o)
            ++ (if webLocator url && isTransparent then [ASetTransparent] else [])
            ++ [AConnect (completionSignal isPlain); ALoadContent url]) /\
     variant h = v /\
     connections h = [completionSignal isPlain] /\
     pending h = loadSignals) /\
  (supported url = false ->
   initializeInvokable url size parameters isPlain isTransparent o
   = Done tt o [ALog (unsupportedMessage ++ path url)]) /\
  (forall c t fileName s ok,
     atRest c -> callable c (Worker t) = true ->
     resolveLocator fileName = Some (url, isPlain) ->
     supported url = true ->
     exists c1 c2 h,
       run (initializePosted t fileName width height parameters isTransparent) c
         = Next c1 /\
       content (this c1) = Some h /\
       variant h = v /\ connections h = [completionSignal isPlain] /\
       mutex (this c1) = Some t /\ waitCondition (this c1) = Some t /\
       threads c1 !! t
         = Some (Running (mkFrame (initializeInvokableCall url size parameters
                                     isPlain isTransparent) PcWaiting)) /\
       exec (LSignal s ok) c1 = Next c2 /\
       if Signal_eqb s (completionSignal isPlain)
       then initializeResult (this c2) = ok /\
            threads c2 !! t
              = Some (Running (mkFrame (initializeInvokableCall url size parameters
                                          isPlain isTransparent) PcWoken))
       else initializeResult (this c2) = initializeResult (this c) /\
            threads c2 = threads c1).
Proof.
  intros size v. split; [|split].
  - intros Su. exists (loading url size parameters isPlain isTransparent).
    split; [apply initializeInvokable_wiring; exact Su|].
    unfold loading, v. destruct (webLocator url); repeat split.
  - unfold supported. intros Su. apply orb_false_iff in Su as [E1 E2].
    apply initializeInvokable_unsupported; assumption.
  - intros c t fileName s ok (A & Q & Mx & W & Qs) Cb RL Su.
    pose proof (callable_lt _ _ Cb) as L.
    destruct c as [[ct m w ir rr] al g q ts tr lb]; cbn in A, Q, Mx, W, L; subst.
    destruct (@initialize_posted ct ir rr g ts tr lb t fileName width height parameters
                isTransparent url isPlain L Cb RL Su) as (acts & E).
    destruct (@signal_completes _ _ isPlain
                (mkConfig
                   (mkEffectsImpl
                      (Some (loading url size parameters isPlain isTransparent))
                      (Some t) (Some t) ir rr)
                   true true []
                   (<[t := Running (mkFrame (initializeInvokableCall url size parameters
                                               isPlain isTransparent) PcWaiting)]> ts)
                   (tr ++ map (pair UIThread) acts) (lb ++ behind ct))
                (loading url size parameters isPlain isTransparent) s ok t
                (initializeInvokableCall url size parameters isPlain isTransparent))
      as (c2 & E2 & R2).
    { reflexivity. }
    { apply loading_connections. }
    { rewrite loading_pending. apply signal_pending. }
    { reflexivity. }
    { reflexivity. }
    { apply list_lookup_insert_eq. exact L. }
    eexists _, c2, _. split; [exact E|]. split; [reflexivity|].
    split; [unfold loading, v; destruct (webLocator url); reflexivity|].
    split; [apply loading_connections|].
    split; [reflexivity|]. split; [reflexivity|].
    split; [apply list_lookup_insert_eq; exact L|].
    split; [exact E2|exact R2].
Qed.

End RunFacts.

(** ** Images *)

Section ImageFacts.

Context {QU : QtUrl} {CI : ContentImpl} {IM : ContentImages}.

Lemma setImage_content h m w ir rr name image :
  setImage name image (mkEffectsImpl (Some h) m w ir rr)
  = Done tt
      (mkEffectsImpl (Some (set_engine (content_setImage name image (engine h)) h))
         m w ir rr) [].
Proof. reflexivity. Qed.

(** X12.  [setImage] and [getImageTypeMap] call through [content] on the
    thread of their caller, without a guard: with no content they call
    through the null pointer.  With a content, [setImage] hands the image
    to the handler and touches nothing else -- it takes no lock, posts
    nothing and wakes nobody, so it does not wait for a call in progress --
    [getImageTypeMap] then reads the handler holding the image, and a
    following [render] is answered by that handler. *)
Theorem setImage_on_calling_thread who name image c :
  (content (this c) = None ->
   setImage_inPlace who name image c = Crash /\
   getImageTypeMap (this c) = NullDeref ImageTypeMap []) /\
  (forall h,
     alive c = true -> content (this c) = Some h ->
     exists c',
       setImage_inPlace who name image c = Next c' /\
       this c' = set_content
                   (Some (set_engine (content_setImage name image (engine h)) h))
                   (this c) /\
       alive c' = true /\ onGui c' = onGui c /\ queue c' = queue c /\
       threads c' = threads c /\ trace c' = trace c /\
       getImageTypeMap (this c')
       = Done (content_getImageTypeMap (content_setImage name image (engine h)))
           (this c') [] /\
       forall t time renderImage,
         resting c h -> callable c (Worker t) = true ->
         exists c'',
           run (marshaledRender t time renderImage) c' = Next c'' /\
           threads c'' !! t
           = Some (Returned OpRender
                     (RBool (fst (renderContent time renderImage
                                    (setContentSize
                                       (mkQSize (imageWidth renderImage)
                                          (imageHeight renderImage))
                                       (content_setImage name image (engine h)))))))).
Proof.
  destruct c as [[ct m w ir rr] al g q ts tr lb]. cbn [this content alive]. split.
  - intros ->. unfold setImage_inPlace, runBody. cbn [alive this].
    split; [|reflexivity]. destruct al; reflexivity.
  - intros h -> ->. unfold setImage_inPlace, runBody. cbn [alive this].
    rewrite setImage_content. cbn [existsb flat_map fold_left map threads queue trace
      onGui alive leftBehind]. rewrite !app_nil_r.
    eexists. split; [reflexivity|]. cbn [this alive onGui queue threads trace].
    repeat (split; [reflexivity|]).
    intros t time renderImage Rs Cb.
    destruct Rs as (_ & G & Q & _ & Mx & W & Qs). cbn in G, Q, Mx, W. subst.
    destruct (@marshaled_render_runs _ _
                (mkConfig
                   (mkEffectsImpl
                      (Some (set_engine (content_setImage name image (engine h)) h))
                      None None ir rr) true true [] ts tr lb)
                (set_engine (content_setImage name image (engine h)) h)
                t time renderImage)
      as (c2 & sfx & E & _ & _ & T & _ & _).
    { repeat split. exact Qs. }
    { exact Cb. }
    exists c2. split; [exact E|]. rewrite T.
    apply list_lookup_insert_eq. apply (callable_lt _ _ Cb).
Qed.

End ImageFacts.

(** ** Scenarios, on the scripted collaborators *)

Section Scenarios.

Import Mock.

Ltac run_it := vm_compute; reflexivity.

Lemma initialized_resting :
  resting (configAfter (initialized "scene.html" [true]) 1) (loaded [true]).
Proof. vm_compute. repeat split. Qed.



(** A synchronized execution with a load signal outstanding: after
    [reload] on the GUI thread, the signal of that load wakes worker 0 out
    of its [render] before the loop has delivered [renderInvokable], and
    [render] returns the stored [renderResult], not the answer the handler
    would give. *)
Lemma render_woken_by_load_signal :
  exists c h,
    run_sync renderDuringLoad (init 1) = Next c /\
    threads c !! 0 = Some (Returned OpRender (RBool false)) /\
    queue c = [MetaCallEvent (renderInvokableCall (instant 0) frame)] /\
    content (this c) = Some h /\
    fst (rendered (instant 0) frame h) = true.
Proof.
  exists (configAfter renderDuringLoad 1). eexists.
  do 4 (split; [run_it|]). run_it.
Qed.


(** C2, at a failing input.  [initialize("scene.html")] has succeeded and
    the handler answers [true] to its next [renderContent].  Called on the
    GUI thread, [render] returns [false], the [renderResult] of the
    constructor; called from a worker on the same object, it returns
    [true]. *)
Theorem render_on_owner_thread_returns_stale :
  let c0 := configAfter (initialized "scene.html" [true]) 1 in
  exists h c1 c2,
    run (initialized "scene.html" [true]) (init 1) = Next c0 /\
    content (this c0) = Some h /\
    fst (rendered (instant 0) frame h) = true /\
    exec (LBegin UIThread (Render (instant 0) frame)) c0 = Next c1 /\
    last (trace c1) = Some (UIThread, AReturn OpRender (RBool false)) /\
    run (marshaledRender 0 (instant 0) frame) c0 = Next c2 /\
    last (trace c2) = Some (Worker 0, AReturn OpRender (RBool true)).
Proof.
  intros c0.
  exists (loaded [true]).
  exists (configAfter (initialized "scene.html" [true]
                         ++ [LBegin UIThread (Render (instant 0) frame)]) 1).
  exists (configAfter (initialized "scene.html" [true]
                         ++ marshaledRender 0 (instant 0) frame) 1).
  do 6 (split; [run_it|]). run_it.
Qed.

(** C4, at a failing input.  A worker calls [initialize("notes.txt")]:
    [initializeInvokable] logs and returns without constructing a handler
    and without calling [initializeComplete]; the worker is left asleep in
    [waitCondition.wait], and nothing but a new call can happen. *)
Theorem unsupported_suffix_strands_caller :
  exists c m,
    run (initializing "notes.txt" []) (init 1) = Next c /\
    content (this c) = None /\
    threads c !! 0 = Some (Running (mkFrame m PcWaiting)) /\
    opOf m = OpInitialize /\
    queue c = [] /\
    (forall l, isBegin l = false -> exec l c = Disabled).
Proof.
  exists (configAfter (initializing "notes.txt" []) 1).
  eexists. do 5 (split; [run_it|]).
  intros [who op|[|t]| |[] ok|i [] ok] B; try discriminate; run_it.
Qed.

(** C8, refuted as stated.  On a new object [render] on the GUI thread
    calls through the null [content]; so does the event loop when a worker
    calls [render] after an [initialize] that constructed no handler.  No
    error is returned to either caller. *)
Lemma render_before_initialize_crashes :
  exec (LBegin UIThread (Render (instant 0) frame)) (init 1) = Crash /\
  ~ (exists c', exec (LBegin UIThread (Render (instant 0) frame)) (init 1) = Next c') /\
  run (initializing "notes.txt" []
         ++ LBegin (Worker 1) (Render (instant 0) frame) :: steps 1 5 ++ [LLoop]) (init 2)
    = Crash.
Proof.
  split; [run_it|]. split; [|run_it].
  intros [c' E]. vm_compute in E. discriminate.
Qed.

Lemma render_without_content_witness :
  content (this (init 1)) = None /\
  exec (LBegin UIThread (Render (instant 0) frame)) (init 1) = Crash.
Proof.
  split; [reflexivity|].
  apply (render_without_content (init 1) (instant 0) frame). reflexivity.
Defined.

Lemma variant_selection_witness :
  isLocalFile qmlScene = true /\
  QString.endsWith (path qmlScene) ".qml" = true /\
  exists o' acts,
    initializeInvokable qmlScene (mkQSize 640 480) (script []) false false
      EffectsImpl_new = Done tt o' acts /\
    constructed acts = [QmlContentV] /\ variantOf o' = Some QmlContentV.
Proof.
  assert (L : isLocalFile qmlScene = true) by run_it.
  assert (Q : QString.endsWith (path qmlScene) ".qml" = true) by run_it.
  destruct (variant_selection qmlScene (mkQSize 640 480) (script []) false false
              EffectsImpl_new) as (o' & acts & E & _ & Hq & _).
  split; [exact L|]. split; [exact Q|]. exists o', acts.
  split; [exact E|]. exact (Hq L Q).
Defined.

Lemma resolveLocator_witness :
  scheme (QUrl_fromString "plain:demo.html") = "plain" /\
  resolveLocator "plain:demo.html" = Some (fromLocalFile "/cwd/demo.html", true) /\
  resolveLocator "" = None.
Proof.
  pose proof (resolveLocator_cases "plain:demo.html") as P. cbv zeta in P.
  destruct P as (_ & _ & P & _).
  pose proof (resolveLocator_cases "") as N. cbv zeta in N.
  destruct N as (_ & _ & _ & N & _).
  split; [run_it|]. split.
  - apply P; [apply Nat.ltb_lt|]; run_it.
  - apply N; [apply Nat.ltb_lt|]; run_it.
Defined.


(** C10, refuted as stated.  Worker 0 is asleep in [initialize] when
    [render] is called on the GUI thread: [renderComplete] finds the
    worker's mutex and wait condition and stores [true].  Worker 0 returns
    and both pointers are null again.  A second [render] on the GUI thread,
    to which [renderContent] answers [false], returns [true]; no marshaled
    render has been made. *)
Lemma fast_path_returns_overlapped_render :
  let c1 := configAfter overlapped 1 in
  run overlapped (init 1) = Next c1 /\
  mutex (this c1) = None /\ waitCondition (this c1) = None /\
  renderReturns (trace c1) = [(UIThread, true)] /\
  exists h c2,
    content (this c1) = Some h /\
    fst (rendered (instant 1) frame h) = false /\
    exec (LBegin UIThread (Render (instant 1) frame)) c1 = Next c2 /\
    renderReturns (trace c2) = [(UIThread, true); (UIThread, true)].
Proof.
  intros c1. do 4 (split; [run_it|]).
  eexists.
  exists (configAfter (overlapped ++ [LBegin UIThread (Render (instant 1) frame)]) 1).
  do 3 (split; [run_it|]). run_it.
Qed.

Lemma renderComplete_without_call_witness :
  let c0 := configAfter (initialized "scene.html" [true; true; true]) 1 in
  mutex EffectsImpl_new = None /\ waitCondition EffectsImpl_new = None /\
  renderComplete true EffectsImpl_new = Done tt EffectsImpl_new [] /\
  (exists c',
     exec (LBegin UIThread (Render (instant 0) frame)) c0 = Next c' /\
     renderResult (this c') = renderResult (this c0) /\
     trace c'
     = (trace c0
          ++ [(UIThread, ASetContentSize (mkQSize (imageWidth frame) (imageHeight frame)));
              (UIThread, ARenderContent (instant 0) frame);
              (UIThread, AReturn OpRender (RBool (renderResult (this c0))))])%list) /\
  (let c1 := configAfter overlapped 1 in
   lastStored overlapped (init 1) false = true /\
   exists c',
     exec (LBegin UIThread (Render (instant 1) frame)) c1 = Next c' /\
     renderReturns (trace c')
     = (renderReturns (trace c1) ++ [(UIThread, lastStored overlapped (init 1) false)])%list) /\
  exists c suffix,
    run (schedule [(UIThread, instant 0, frame); (Worker 0, instant 1, frame);
                   (UIThread, instant 2, frame)]) c0 = Next c /\
    renderReturns suffix = [(UIThread, false); (Worker 0, true); (UIThread, true)] /\
    inPlaceReturnsLatest false (renderReturns suffix).
Proof.
  intros c0.
  destruct (@renderComplete_without_call url handler) as (F & _ & _ & P & _ & S & H).
  split; [reflexivity|]. split; [reflexivity|].
  split; [apply F; reflexivity|].
  assert (R : resting c0 (loaded [true; true; true]))
    by (vm_compute; repeat split).
  split; [|split].
  - destruct (P c0 (loaded [true; true; true]) (instant 0) frame
                ltac:(run_it) ltac:(run_it) ltac:(run_it) ltac:(run_it))
      as (c' & E & RR & _ & _ & _ & Tr).
    exists c'. split; [exact E|]. split; [exact RR|exact Tr].
  - intros c1. split; [run_it|].
    assert (R1 : run overlapped (init 1) = Next c1) by run_it.
    assert (C1 : content (this c1)
                 = Some (mkContent WebContentV (script [false]) [contentLoadFinished]
                           loadSignals)) by run_it.
    exact (proj2 (S 1 overlapped c1 _ (instant 1) frame R1
                    ltac:(run_it) C1 ltac:(run_it) ltac:(run_it))).
  - assert (C : Forall (fun call : Thread * TimePoint * Image =>
                          callable c0 (fst (fst call)) = true)
                  [(UIThread, instant 0, frame); (Worker 0, instant 1, frame);
                   (UIThread, instant 2, frame)])
      by (repeat constructor).
    destruct (H _ _ _ R C) as (c & sfx & E & Tr & Ex & La).
    exists c, sfx. split; [exact E|]. split; [rewrite Ex; run_it|exact La].
Defined.

Lemma atRest_init n : atRest (init n).
Proof.
  repeat split. unfold quiescent, init. cbn [threads].
  induction n as [|n IH]; [reflexivity|exact IH].
Qed.

Lemma settled_init n : settled (init n).
Proof. split; [intros h H; discriminate|constructor]. Qed.

Lemma initializeInvokable_wires_witness :
  let m := initializeInvokableCall plainScene (mkQSize 640 480) (script []) true true in
  exists c1 c2 h,
    run (initializePosted 0 "plain:scene.qml" 640 480 (script []) true) (init 1)
      = Next c1 /\
    content (this c1) = Some h /\
    variant h = QmlContentV /\
    connections h = [contentPreLoadFinished] /\
    threads c1 !! 0 = Some (Running (mkFrame m PcWaiting)) /\
    exec (LSignal contentPreLoadFinished false) c1 = Next c2 /\
    initializeResult (this c2) = false /\
    threads c2 !! 0 = Some (Running (mkFrame m PcWoken)).
Proof.
  intros m.
  destruct (initializeInvokable_wires_before_load
              plainScene 640 480 (script []) true true EffectsImpl_new)
    as (_ & _ & S).
  destruct (S (init 1) 0 "plain:scene.qml" contentPreLoadFinished false
              (atRest_init 1) eq_refl ltac:(run_it) ltac:(run_it))
    as (c1 & c2 & h & E & C & V & Cn & _ & _ & T & E2 & I & W).
  exists c1, c2, h. split; [exact E|]. split; [exact C|].
  split; [exact V|]. split; [exact Cn|]. split; [exact T|].
  split; [exact E2|]. split; [exact I|exact W].
Defined.

(** *** Instances of the further properties *)

Lemma pointers_never_dangle_witness :
  let c := configAfter twoCallers 2 in
  run twoCallers (init 2) = Next c /\
  pointersLive c /\
  (quiescent c = true -> mutex (this c) = None /\ waitCondition (this c) = None).
Proof.
  intros c.
  assert (R : run twoCallers (init 2) = Next c) by run_it.
  split; [exact R|]. exact (pointers_never_dangle _ _ R).
Defined.

Lemma content_called_on_gui_thread_witness :
  let c := configAfter destroyed 1 in
  run destroyed (init 1) = Next c /\ contentOnGui (trace c).
Proof.
  intros c.
  assert (R : run destroyed (init 1) = Next c) by run_it.
  split; [exact R|]. exact (content_called_on_gui_thread _ _ R).
Defined.

Lemma content_deleted_at_most_once_witness :
  let c := configAfter destroyedTwice 1 in
  run destroyedTwice (init 1) = Next c /\
  deletions (trace c) <= 1 /\
  (alive c = true -> deletions (trace c) = 0).
Proof.
  intros c.
  assert (R : run destroyedTwice (init 1) = Next c)
    by run_it.
  split; [exact R|]. exact (content_deleted_at_most_once _ _ R).
Defined.

Lemma call_on_deleted_object_witness :
  let c := configAfter destroyedDuringRender 1 in
  let c' := configAfter (destroyedDuringRender ++ steps 0 2) 1 in
  let d := configAfter destroyedDuringReload 1 in
  (orphaned 0 c /\ run (steps 0 2) c = Next c' /\
   (exists f, threads c' !! 0 = Some (Running f) /\ accessAhead f = true) /\
   run (steps 0 3) c = Crash) /\
  (alive d = false /\
   threads d !! 0 = Some (Running (mkFrame reloadInvokableCall PcReturn)) /\
   exists d', exec (LThread 0) d = Next d' /\
              threads d' !! 0 = Some (Returned OpReload RVoid)).
Proof.
  intros c c' d. split.
  - assert (O : orphaned 0 c)
      by (split; [run_it|eexists; split; [run_it|reflexivity]]).
    assert (R : run (steps 0 2) c = Next c') by run_it.
    split; [exact O|]. split; [exact R|]. split; [|run_it].
    exact (proj1 (@call_on_deleted_object_never_returns _ _ 0 c) (steps 0 2) c' O R).
  - assert (A : alive d = false) by run_it.
    assert (T : threads d !! 0 = Some (Running (mkFrame reloadInvokableCall PcReturn)))
      by run_it.
    split; [exact A|]. split; [exact T|].
    exact (proj2 (@call_on_deleted_object_never_returns _ _ 0 d) A T).
Defined.

Lemma initialize_returns_load_result_witness :
  exists c',
    run (marshaledInitialize 0 "scene.html" 640 480 (script [true]) false
           contentLoadFinished false) (init 1) = Next c' /\
    threads c' !! 0 = Some (Returned OpInitialize (RBool false)) /\
    initializeResult (this c') = false /\
    deletions (trace c') = 0.
Proof.
  destruct (@initialize_returns_load_result _ _ (init 1) 0 "scene.html" 640 480
              (script [true]) false htmlScene false false
              (atRest_init 1) eq_refl ltac:(run_it) ltac:(run_it))
    as (c' & E & T & I & _ & D).
  exists c'. repeat split; assumption.
Defined.

Lemma render_after_initialize_witness :
  exists c',
    run (marshaledInitialize 0 "scene.html" 640 480 (script [true]) false
           contentLoadFinished false
         ++ marshaledRender 0 (instant 0) frame) (init 1) = Next c' /\
    threads c' !! 0 = Some (Returned OpRender (RBool true)) /\
    initializeResult (this c') = false.
Proof.
  destruct (@render_after_initialize _ _ (init 1) 0 0 "scene.html" 640 480
              (script [true]) false htmlScene false false (instant 0) frame
              (atRest_init 1) eq_refl eq_refl ltac:(run_it) ltac:(run_it))
    as (c' & E & T & _ & I).
  exists c'. split; [exact E|]. split; [exact T|exact I].
Defined.

Lemma reload_returns_on_load_signal_witness :
  let c := configAfter (initialized "scene.html" [true]) 1 in
  exists c1 c2,
    run (reloadPosted 0) c = Next c1 /\
    exec (LThread 0) c1 = Disabled /\ exec LLoop c1 = Disabled /\
    run (LSignal contentLoadFinished false :: steps 0 5) c1 = Next c2 /\
    threads c2 !! 0 = Some (Returned OpReload RVoid) /\
    initializeResult (this c2) = false.
Proof.
  intros c.
  destruct (@reload_returns_on_load_signal _ _ c (loaded [true]) 0 contentLoadFinished
              false initialized_resting ltac:(run_it))
    as (c1 & E & _ & D1 & D2 & _ & W).
  destruct (W eq_refl) as (c2 & E2 & T & I & _).
  exists c1, c2. repeat split; try assumption.
  rewrite T. reflexivity.
Defined.

Lemma load_signal_without_call_witness :
  let c := configAfter (initialized "scene.html" [true]) 1 in
  content (this c) = Some (loaded [true]) /\
  mutex (this c) = None /\ waitCondition (this c) = None /\
  exists c1,
    exec (LBegin UIThread Reload) c = Next c1 /\
    exec (LSignal contentLoadFinished true) c1 = Crash.
Proof.
  intros c.
  assert (C : content (this c) = Some (loaded [true])) by run_it.
  assert (M : mutex (this c) = None) by run_it.
  assert (W : waitCondition (this c) = None) by run_it.
  split; [exact C|]. split; [exact M|]. split; [exact W|].
  exact (proj2 (@load_signal_without_call _ _ c (loaded [true]) contentLoadFinished
                  true C M W eq_refl) ltac:(run_it)).
Defined.

Lemma render_on_owner_thread_wakes_caller_witness :
  let c := configAfter (initializing "scene.html" [true]) 1 in
  exists m c1 c2,
    threads c !! 0 = Some (Running (mkFrame m PcWaiting)) /\
    opOf m = OpInitialize /\
    exec (LBegin UIThread (Render (instant 0) frame)) c = Next c1 /\
    renderResult (this c1) = true /\
    run (steps 0 5) c1 = Next c2 /\
    threads c2 !! 0 = Some (Returned OpInitialize (RBool false)).
Proof.
  intros c.
  assert (T : threads c !! 0
              = Some (Running (mkFrame
                        (initializeInvokableCall htmlScene (mkQSize 640 480)
                           (script [true]) false false) PcWaiting))) by run_it.
  assert (C : content (this c)
              = Some (mkContent WebContentV (script [true]) [contentLoadFinished]
                        loadSignals)) by run_it.
  destruct (@render_on_owner_thread_wakes_caller _ _ c _ 0 _ (instant 0) frame
              ltac:(run_it) C ltac:(run_it) ltac:(run_it) T)
    as (c1 & c2 & E & _ & RR & _ & _ & _ & E2 & T2 & _).
  eexists _, c1, c2. split; [exact T|]. split; [reflexivity|].
  split; [exact E|]. split; [exact RR|]. split; [exact E2|].
  rewrite T2. cbn [opOf resultOf].
  replace (initializeResult (this c1)) with false; [reflexivity|].
  vm_compute in E. injection E as <-. reflexivity.
Defined.

Lemma transparency_only_for_web_witness :
  webLocator qmlScene = false /\
  initializeInvokable qmlScene (mkQSize 640 480) (script []) false true EffectsImpl_new
  = initializeInvokable qmlScene (mkQSize 640 480) (script []) false false
      EffectsImpl_new.
Proof.
  assert (W : webLocator qmlScene = false) by run_it.
  split; [exact W|].
  exact (proj1 (transparency_only_for_web qmlScene (mkQSize 640 480) (script []) false
                  EffectsImpl_new) W).
Defined.

Lemma unsupported_locator_strands_caller_witness :
  exists c',
    run (initializePosted 0 "notes.txt" 640 480 (script []) false) (init 1) = Next c' /\
    content (this c') = None /\
    forall l, isBegin l = false -> exec l c' = Disabled.
Proof.
  destruct (@unsupported_locator_strands_caller _ _ (init 1) 0 "notes.txt" 640 480
              (script []) false notes false
              (atRest_init 1) (settled_init 1) eq_refl ltac:(run_it) ltac:(run_it))
    as (c' & E & C & _ & _ & _ & S).
  exists c'. split; [exact E|]. split; [exact C|exact S].
Defined.

Lemma setImage_on_calling_thread_witness :
  let c := configAfter (initialized "scene.html" [true]) 1 in
  getImageTypeMap (this (init 1)) = NullDeref ImageTypeMap [] /\
  exists c' c'',
    setImage_inPlace (Worker 0) "background" pixels c = Next c' /\
    trace c' = trace c /\
    run (marshaledRender 0 (instant 0) frame) c' = Next c'' /\
    threads c'' !! 0 = Some (Returned OpRender (RBool true)).
Proof.
  intros c.
  pose proof (@setImage_on_calling_thread _ _ _ (Worker 0) "background" pixels (init 1))
    as [N _].
  split; [exact (proj2 (N eq_refl))|].
  pose proof (@setImage_on_calling_thread _ _ _ (Worker 0) "background" pixels c)
    as [_ S].
  destruct (S (loaded [true]) ltac:(run_it) ltac:(run_it))
    as (c' & E & _ & _ & _ & _ & _ & Tr & _ & R).
  destruct (R 0 (instant 0) frame initialized_resting ltac:(run_it)) as (c'' & E2 & T).
  exists c', c''. split; [exact E|]. split; [exact Tr|]. split; [exact E2|exact T].
Defined.


Lemma content_only_after_move_witness :
  let c := configAfter (initializing "scene.html" [true]) 1 in
  run (initializing "scene.html" [true]) (init 1) = Next c /\
  content (this c) <> None /\ onGui c = true.
Proof.
  intros c.
  assert (R : run (initializing "scene.html" [true]) (init 1) = Next c) by run_it.
  assert (N : content (this c) <> None) by (vm_compute; discriminate).
  split; [exact R|]. split; [exact N|].
  exact (content_only_after_move _ _ R N).
Defined.

Lemma replaced_handler_stays_connected_witness :
  let c := configAfter reloaded 1 in
  exists c' c1 c2,
    run (marshaledInitialize 0 "next.html" 640 480 (script []) false
           contentLoadFinished true) c = Next c' /\
    length (leftBehind c') = 1 /\
    exec (LStray 0 contentLoadFinished false) c' = Crash /\
    run (LBegin (Worker 0) (Render (instant 0) frame) :: steps 0 5) c' = Next c1 /\
    run (LStray 0 contentLoadFinished false :: steps 0 5) c1 = Next c2 /\
    threads c2 !! 0 = Some (Returned OpRender (RBool false)).
Proof.
  intros c.
  assert (A : atRest c) by (vm_compute; repeat split).
  assert (Z : length (leftBehind c) = 0) by run_it.
  assert (V : renderResult (this c) = false) by run_it.
  destruct (@replaced_handler_stays_connected _ _ c 0 "next.html" 640 480 (script [])
              false nextScene false true _ A ltac:(run_it) ltac:(run_it) ltac:(run_it)
              ltac:(run_it))
    as (c' & E & Lb & _ & _ & _ & S).
  rewrite Z in S. rewrite V in S.
  destruct (S contentLoadFinished false eq_refl eq_refl) as (Cr & Rn).
  assert (Cb : callable c' (Worker 0) = true).
  { revert E. vm_compute. intros [= <-]. reflexivity. }
  destruct (Rn 0 (instant 0) frame Cb) as (c1 & c2 & E1 & E2 & T & _).
  exists c', c1, c2. split; [exact E|]. split; [rewrite Lb, length_app, Z; reflexivity|].
  split; [exact Cr|]. split; [exact E1|]. split; [exact E2|exact T].
Defined.

End Scenarios.
